(** * A shallow embedding of the hills typed tree and its hot-sync paths

    Sources: [hills_base/src/generic_key.rs], [hills_base/src/simple_ast.rs],
    [hills/src/key_pool.rs], [hills/src/db.rs] (TypedTree),
    [hills/src/sync_common.rs] (handle_incoming_record) and
    [hills/src/sync_server.rs] (process_message, HotSyncEvent arm).

    The embedded key/value engine (sled) is a finite map from byte keys to
    entries; rkyv's archived values are represented by their decoded form,
    with [check_archived_root] failing when an entry holds another type.
    Error payloads (the formatted messages) are dropped. *)

From stdpp Require Import base gmap strings list.
From Stdlib Require Import ZArith.

Open Scope N_scope.

(* ------------------------------------------------------------------ *)
(** ** GenericKey (hills_base/src/generic_key.rs) *)

Record GenericKey := mkGenericKey { id : N; revision : N }.

#[global] Instance GenericKey_eq_dec : EqDecision GenericKey.
Proof. solve_decision. Defined.

#[global] Instance GenericKey_countable : Countable GenericKey.
Proof.
  apply (inj_countable' (fun k => (id k, revision k))
           (fun p => mkGenericKey p.1 p.2)).
  by intros [].
Defined.

Definition GenericKey_new (i r : N) : GenericKey := mkGenericKey i r.

Definition previous_revision (k : GenericKey) : option GenericKey :=
  if (0 <? revision k)%N
  then Some (mkGenericKey (id k) (revision k - 1))
  else None.

(** [u32::to_be_bytes] *)
Definition be32 (x : N) : list Z :=
  [Z.of_N (N.shiftr x 24 mod 256); Z.of_N (N.shiftr x 16 mod 256);
   Z.of_N (N.shiftr x 8 mod 256); Z.of_N (x mod 256)].

Definition to_bytes (k : GenericKey) : list Z := be32 (id k) ++ be32 (revision k).

(** [KEY_POOL = b"_key_pool"] (hills/src/consts.rs) *)
Definition KEY_POOL : list Z :=
  map (fun c => Z.of_nat (Ascii.nat_of_ascii c)) (String.list_ascii_of_string "_key_pool").

(* ------------------------------------------------------------------ *)
(** ** Versions, records (hills_base/src/simple_version.rs, hills/src/record.rs) *)

Record SimpleVersion := mkSimpleVersion { major : N; minor : N }.

#[global] Instance SimpleVersion_eq_dec : EqDecision SimpleVersion.
Proof. solve_decision. Defined.

Definition rkyv_version : SimpleVersion := mkSimpleVersion 0 7.

Inductive Version :=
| NonVersioned
| Draft (n : N)
| Released (n : N).

#[global] Instance Version_eq_dec : EqDecision Version.
Proof. solve_decision. Defined.

Record RecordMeta := mkRecordMeta {
  key : GenericKey;
  version : Version;
  modified_on : N;          (** the 16-byte node UUID *)
  modified_by : string;
  modified : Z;             (** UTC milliseconds *)
  created : Z;
  meta_rkyv_version : SimpleVersion;
}.

Record Record := mkRecord {
  meta_iteration : N;
  meta : RecordMeta;
  data_iteration : N;
  data : list Z;
  data_evolution : SimpleVersion;
}.

(** [KeyPool { ranges: Vec<Range<u32>> }] *)
Record KeyPool := mkKeyPool { ranges : list (N * N) }.

(** Entries of a user tree: records under 8-byte keys, the key pool under
    [KEY_POOL]. *)
Inductive Entry :=
| ERecord (r : Record)
| EKeyPool (p : KeyPool).

(** A sled tree. *)
Abbreviation SledTree := (gmap (list Z) Entry).

(** The error kinds of [hills::common::Error] used on these paths. *)
Inductive Error :=
| Sled | Usage | Internal | EvolutionMismatch | VersioningMismatch
| RecordNotFound | OutOfKeys | IndexError | Mpsc | RkyvDeserializeError
| TransactionAbort | PostageBroadcast | WrongKey.

#[global] Instance Error_eq_dec : EqDecision Error.
Proof. solve_decision. Defined.

Inductive result (A : Type) :=
| Ok (a : A)
| Err (e : Error).
Arguments Ok {A} a.
Arguments Err {A} e.

(** [check_archived_root::<Record>] *)
Definition archived_record (e : Entry) : result Record :=
  match e with
  | ERecord r => Ok r
  | EKeyPool _ => Err RkyvDeserializeError
  end.

(** [check_archived_root::<KeyPool>] *)
Definition archived_key_pool (e : Entry) : result KeyPool :=
  match e with
  | EKeyPool p => Ok p
  | ERecord _ => Err TransactionAbort
  end.

(** [u32] addition, with the wrap-around of a release build (a debug
    build panics on overflow instead). *)
Definition u32_add (a b : N) : N := (a + b) mod 2 ^ 32.

(* ------------------------------------------------------------------ *)
(** ** KeyPool (hills/src/key_pool.rs) *)

(** [KeyPool::get]: returns the next id and the pool after taking it;
    [next_key + 1] is a [u32] addition. *)
Definition KeyPool_get (p : KeyPool) : option N * KeyPool :=
  match ranges p with
  | [] => (None, p)
  | (start, end_) :: rest =>
      if (end_ <=? u32_add start 1)%N
      then (Some start, mkKeyPool rest)
      else (Some start, mkKeyPool ((u32_add start 1, end_) :: rest))
  end.

(** [TypedTree::pool_get_key]: one sled transaction; only the branch that
    hands out a key writes the pool back. A pool entry failing
    [check_archived_root] aborts the transaction, which [From<TransactionError>]
    turns into [Error::Internal]. *)
Definition pool_get_key (d : SledTree) : SledTree * result GenericKey :=
  match d !! KEY_POOL with
  | Some e =>
      match archived_key_pool e with
      | Err _ => (d, Err Internal)
      | Ok kp =>
          match KeyPool_get kp with
          | (Some next_key, kp') =>
              (<[KEY_POOL := EKeyPool kp']> d, Ok (GenericKey_new next_key 0))
          | (None, _) => (d, Err OutOfKeys)
          end
      end
  | None => (d, Err OutOfKeys)
  end.

(* ------------------------------------------------------------------ *)
(** ** Check-out mirror and channels *)

(** [RecordBorrows { borrows: HashMap<String, HashMap<GenericKey, VecDeque<Uuid>>> }] *)
Abbreviation Borrows := (gmap string (gmap GenericKey (list N))).

Inductive ChangeKind := ModifyMeta | CreateOrChange | Remove.

Record RecordHotChange := mkRecordHotChange {
  change_tree : string;
  change_key : GenericKey;
  change_meta_iteration : N;
  change_data_iteration : N;
  change_kind : ChangeKind;
}.

(** [index::Action] *)
Inductive Action := Insert | Update | ActRemove.

(* ------------------------------------------------------------------ *)
(** ** TypedTree (hills/src/db.rs) *)

Module TypedTreeDb.

Section TypedTreeOps.

(** [V] is the tree's root type, [encode]/[decode] the rkyv serialisation
    of [Evolving(V)], [evolution] is [V::evolution()]. Registered indexers
    are [Box<dyn TreeIndex>]; [ix_update] is [TreeIndex::update], which
    reads the tree through [TypeErasedTree] and mutates only the index. *)
Context {V IxState : Type}.
Context (encode : V -> list Z) (decode : list Z -> option V).
Context (evolution : SimpleVersion).
Context (ix_update : IxState -> SledTree -> SimpleVersion -> GenericKey ->
                     list Z -> Action -> IxState * result unit).

Record TypedTree := mkTypedTree {
  tree_name : string;
  tdata : SledTree;
  versioning : bool;
  username : string;
  uuid : N;
  indexers : list IxState;
  borrows : Borrows;
  (** [cmd_tx]: whether the command channel is closed, and what was sent *)
  cmd_closed : bool;
  cmd_sent : list RecordHotChange;
  (** [updates_tx]: notifications emitted (a full channel drops them) *)
  updates_full : bool;
  notifications : list (GenericKey * ChangeKind);
}.

Definition with_data (t : TypedTree) (d : SledTree) : TypedTree :=
  mkTypedTree (tree_name t) d (versioning t) (username t) (uuid t)
    (indexers t) (borrows t) (cmd_closed t) (cmd_sent t)
    (updates_full t) (notifications t).

Definition with_indexers (t : TypedTree) (ixs : list IxState) : TypedTree :=
  mkTypedTree (tree_name t) (tdata t) (versioning t) (username t) (uuid t)
    ixs (borrows t) (cmd_closed t) (cmd_sent t)
    (updates_full t) (notifications t).

(** [self.cmd_tx.blocking_send(SyncClientCommand::Change(change))] *)
Definition send_change (t : TypedTree) (c : RecordHotChange) : option TypedTree :=
  if cmd_closed t then None
  else Some (mkTypedTree (tree_name t) (tdata t) (versioning t) (username t)
               (uuid t) (indexers t) (borrows t) (cmd_closed t)
               (cmd_sent t ++ [c]) (updates_full t) (notifications t)).

(** [self.updates_tx.try_send(notification)]; a failure only logs. *)
Definition notify (t : TypedTree) (k : GenericKey) (ck : ChangeKind) : TypedTree :=
  if updates_full t then t
  else mkTypedTree (tree_name t) (tdata t) (versioning t) (username t)
         (uuid t) (indexers t) (borrows t) (cmd_closed t) (cmd_sent t)
         (updates_full t) (notifications t ++ [(k, ck)]).

(** [for indexer in &mut self.indexers { indexer.update(..)?; }]: stops at
    the first error; indexers before it keep their new state. *)
Fixpoint run_indexers (ixs : list IxState) (tr : SledTree) (evo : SimpleVersion)
    (k : GenericKey) (bytes : list Z) (a : Action) : list IxState * result unit :=
  match ixs with
  | [] => ([], Ok tt)
  | ix :: rest =>
      let '(ix', r) := ix_update ix tr evo k bytes a in
      match r with
      | Err e => (ix' :: rest, Err e)
      | Ok _ =>
          let '(rest', r') := run_indexers rest tr evo k bytes a in
          (ix' :: rest', r')
      end
  end.

(** The loop of [remove]: an error is logged and the loop goes on. *)
Fixpoint run_indexers_logged (ixs : list IxState) (tr : SledTree)
    (evo : SimpleVersion) (k : GenericKey) (bytes : list Z) (a : Action)
    : list IxState :=
  match ixs with
  | [] => []
  | ix :: rest =>
      (ix_update ix tr evo k bytes a).1 :: run_indexers_logged rest tr evo k bytes a
  end.

Definition version_for (versioned : bool) : Version :=
  if versioned then Draft 0 else NonVersioned.

(** [TypedTree::insert]; [now] is [Utc::now()]. *)
Definition insert (now : Z) (value : V) (t : TypedTree) : TypedTree * result GenericKey :=
  let '(d1, rk) := pool_get_key (tdata t) in
  let t := with_data t d1 in
  match rk with
  | Err e => (t, Err e)
  | Ok generic_key =>
      let key_bytes := to_bytes generic_key in
      match tdata t !! key_bytes with
      | Some _ => (t, Err Internal)
      | None =>
          let bytes := encode value in
          let '(ixs, ri) := run_indexers (indexers t) (tdata t) evolution
                               generic_key bytes Insert in
          let t := with_indexers t ixs in
          match ri with
          | Err e => (t, Err e)
          | Ok _ =>
              let m := mkRecordMeta generic_key (version_for (versioning t))
                         (uuid t) (username t) now now rkyv_version in
              let r := mkRecord 0 m 0 bytes evolution in
              let t := with_data t (<[key_bytes := ERecord r]> (tdata t)) in
              match send_change t (mkRecordHotChange (tree_name t) generic_key
                                     0 0 CreateOrChange) with
              | None => (t, Err Mpsc)
              | Some t => (notify t generic_key CreateOrChange, Ok generic_key)
              end
          end
      end
  end.

(** [TypedTree::is_checked_out] *)
Definition is_checked_out (t : TypedTree) (k : GenericKey) : bool :=
  match borrows t !! tree_name t with
  | Some borrowed_keys =>
      match borrowed_keys !! k with
      | Some queue => bool_decide (head queue = Some (uuid t))
      | None => false
      end
  | None => false
  end.

Definition is_draft0 (v : Version) : bool :=
  match v with Draft 0 => true | _ => false end.

Definition is_released (v : Version) : bool :=
  match v with Released _ => true | _ => false end.

(** The revision check of [update]: [Ok tt] when the update may go on. *)
Definition check_previous (t : TypedTree) (generic_key : GenericKey) : result unit :=
  match previous_revision generic_key with
  | Some previous =>
      match tdata t !! to_bytes previous with
      | None => Err Internal
      | Some e =>
          match archived_record e with
          | Err er => Err er
          | Ok previous_record =>
              if is_draft0 (version (meta previous_record))
              then Err VersioningMismatch else Ok tt
          end
      end
  | None => Ok tt
  end.

(** [TypedTree::update] *)
Definition update (now : Z) (generic_key : GenericKey) (value : V) (t : TypedTree)
    : TypedTree * result unit :=
  if negb (is_checked_out t generic_key) then (t, Err Usage) else
  let key_bytes := to_bytes generic_key in
  if negb (versioning t) && negb (revision generic_key =? 0) then (t, Err Usage) else
  match check_previous t generic_key with
  | Err e => (t, Err e)
  | Ok _ =>
      match tdata t !! key_bytes with
      | None => (t, Err Usage)
      | Some e =>
          match archived_record e with
          | Err er => (t, Err er)
          | Ok replacing =>
              if versioning t && is_released (version (meta replacing))
              then (t, Err VersioningMismatch) else
              let bytes := encode value in
              let '(ixs, ri) := run_indexers (indexers t) (tdata t) evolution
                                   generic_key bytes Update in
              let t := with_indexers t ixs in
              match ri with
              | Err er => (t, Err er)
              | Ok _ =>
                  let m := mkRecordMeta generic_key (version_for (versioning t))
                             (uuid t) (username t) now (created (meta replacing))
                             rkyv_version in
                  let r := mkRecord (u32_add (meta_iteration replacing) 1) m
                             (u32_add (data_iteration replacing) 1) bytes evolution in
                  let t := with_data t (<[key_bytes := ERecord r]> (tdata t)) in
                  match send_change t (mkRecordHotChange (tree_name t) generic_key
                          (meta_iteration r) (data_iteration r) CreateOrChange) with
                  | None => (t, Err Mpsc)
                  | Some t => (notify t generic_key CreateOrChange, Ok tt)
                  end
              end
          end
      end
  end.

(** [TypedTree::get] *)
Definition get (t : TypedTree) (k : GenericKey) : result V :=
  match tdata t !! to_bytes k with
  | Some e =>
      match archived_record e with
      | Err er => Err er
      | Ok r =>
          if decide (data_evolution r <> evolution) then Err EvolutionMismatch
          else match decode (data r) with
               | Some v => Ok v
               | None => Err RkyvDeserializeError
               end
      end
  | None => Err RecordNotFound
  end.

(** [TypedTree::remove] *)
Definition remove (k : GenericKey) (t : TypedTree) : TypedTree * result (option unit) :=
  if negb (is_checked_out t k) then (t, Err Usage) else
  let key_bytes := to_bytes k in
  match tdata t !! key_bytes with
  | Some e =>
      match archived_record e with
      | Err er => (t, Err er)
      | Ok r =>
          if is_released (version (meta r)) then (t, Err Usage) else
          let t := with_indexers t (run_indexers_logged (indexers t) (tdata t)
                                      evolution k (data r) ActRemove) in
          let t := with_data t (delete key_bytes (tdata t)) in
          match send_change t (mkRecordHotChange (tree_name t) k
                  (meta_iteration r) (data_iteration r) Remove) with
          | None => (t, Err Mpsc)
          | Some t => (notify t k Remove, Ok (Some tt))
          end
      end
  | None => (t, Ok None)
  end.

(** [TypedTree::meta] *)
Definition meta_of (t : TypedTree) (k : GenericKey)
    : result (option (N * RecordMeta * N * SimpleVersion)) :=
  match tdata t !! to_bytes k with
  | Some e =>
      match archived_record e with
      | Err er => Err er
      | Ok r => Ok (Some (meta_iteration r, meta r, data_iteration r, data_evolution r))
      end
  | None => Ok None
  end.

End TypedTreeOps.

End TypedTreeDb.
Export TypedTreeDb.

(* ------------------------------------------------------------------ *)
(** ** Common record application (hills/src/sync_common.rs) *)

(** The database: sled trees by name. [db.open_tree(name)] creates an empty
    tree when it is missing. *)
Abbreviation Db := (gmap string SledTree).

Definition open_tree (db : Db) (name : string) : Db * SledTree :=
  match db !! name with
  | Some tr => (db, tr)
  | None => (<[name := ∅]> db, ∅)
  end.

(** The event kinds [handle_incoming_record] matches on. *)
Inductive HotSyncEventKind :=
| Created (m : RecordMeta) (bytes : list Z) (mi di : N) (evo : SimpleVersion)
| MetaChanged (m : RecordMeta) (mi : N)
| Changed (m : RecordMeta) (mi : N) (bytes : list Z) (di : N) (evo : SimpleVersion)
| Removed.

Record HotSyncEvent := mkHotSyncEvent {
  ev_tree_name : string;
  ev_key : GenericKey;
  source_addr : option N;
  kind : HotSyncEventKind;
}.

Section SyncCommon.

Context {IxState : Type}.
Context (ix_update : IxState -> SledTree -> SimpleVersion -> GenericKey ->
                     list Z -> Action -> IxState * result unit).

(** [indexers: Option<&mut HashMap<String, Vec<Box<dyn TreeIndex>>>>]:
    indexer errors are logged and the loop goes on. *)
Definition run_opt_indexers (ixm : option (gmap string (list IxState)))
    (tree_name : string) (tr : SledTree) (evo : SimpleVersion) (k : GenericKey)
    (bytes : list Z) (a : Action) : option (gmap string (list IxState)) :=
  match ixm with
  | Some m =>
      match m !! tree_name with
      | Some ixs =>
          Some (<[tree_name := run_indexers_logged ix_update ixs tr evo k bytes a]> m)
      | None => Some m
      end
  | None => None
  end.

Abbreviation HState := (Db * option (gmap string (list IxState)))%type.

(** [handle_incoming_record] *)
Definition handle_incoming_record (db : Db) (ixm : option (gmap string (list IxState)))
    (ev : HotSyncEvent) : HState * result unit :=
  let tree_name := ev_tree_name ev in
  let k := ev_key ev in
  let key_bytes := to_bytes k in
  let '(db, db_tree) := open_tree db tree_name in
  let put tr := <[tree_name := tr]> db in
  match kind ev with
  | Created m bytes mi di evo =>
      match db_tree !! key_bytes with
      | Some _ => ((db, ixm), Ok tt)
      | None =>
          let ixm := run_opt_indexers ixm tree_name db_tree evo k bytes Insert in
          let r := mkRecord mi m di bytes evo in
          ((put (<[key_bytes := ERecord r]> db_tree), ixm), Ok tt)
      end
  | MetaChanged m mi =>
      match db_tree !! key_bytes with
      | None => ((db, ixm), Ok tt)
      | Some e =>
          match archived_record e with
          | Err er => ((db, ixm), Err er)
          | Ok old_record =>
              if (mi <=? meta_iteration old_record)%N then ((db, ixm), Ok tt) else
              let r := mkRecord mi m (data_iteration old_record) (data old_record)
                         (data_evolution old_record) in
              ((put (<[key_bytes := ERecord r]> db_tree), ixm), Ok tt)
          end
      end
  | Changed m mi bytes di evo =>
      match db_tree !! key_bytes with
      | None => ((db, ixm), Ok tt)
      | Some e =>
          match archived_record e with
          | Err er => ((db, ixm), Err er)
          | Ok old_record =>
              if (mi <=? meta_iteration old_record)%N || (di <=? data_iteration old_record)%N
              then ((db, ixm), Ok tt) else
              let ixm := run_opt_indexers ixm tree_name db_tree evo k bytes Update in
              let r := mkRecord mi m di bytes evo in
              ((put (<[key_bytes := ERecord r]> db_tree), ixm), Ok tt)
          end
      end
  | Removed =>
      match db_tree !! key_bytes with
      | Some e =>
          match archived_record e with
          | Err er => ((db, ixm), Err er)
          | Ok r =>
              let ixm := run_opt_indexers ixm tree_name db_tree (data_evolution r) k
                           (data r) ActRemove in
              ((put (delete key_bytes db_tree), ixm), Ok tt)
          end
      | None => ((db, ixm), Ok tt)
      end
  end.

End SyncCommon.

(* ------------------------------------------------------------------ *)
(** ** Relay: the HotSyncEvent arm of [process_message] (hills/src/sync_server.rs) *)

Module Relay.

(** [HotSyncEventKind] as declared in hills/src/sync.rs. *)
Inductive WireKind :=
| WMetaChanged (m : RecordMeta) (mi : N)
| WCreatedOrChanged (m : RecordMeta) (mi : N) (bytes : list Z) (evo : SimpleVersion) (di : N)
| WRemoved.

Record WireEvent := mkWireEvent {
  w_tree_name : string;
  w_key : GenericKey;
  w_source_addr : option N;
  w_kind : WireKind;
}.

Record ClientInfo := mkClientInfo {
  ci_uuid : N;
  key_ranges : gmap string (list (N * N));
  subscribed_to : gset string;
  readable_name : string;
}.

(** [ClientInfo::owns_key]: [Range::contains] is [start <= x < end]. *)
Definition owns_key (ci : ClientInfo) (tree : string) (k : GenericKey) : bool :=
  match key_ranges ci !! tree with
  | Some rs => existsb (fun r => (r.1 <=? id k)%N && (id k <? r.2)%N) rs
  | None => false
  end.

(** Modelled from the spec: [handle_incoming_record] over the event kinds of
    hills/src/sync.rs; its [CreatedOrChanged] arm is not in the sources
    (sync_common.rs still matches [Created] and [Changed]). Per the spec, a
    [CreatedOrChanged] creates the record when it is absent (the [Created]
    arm) and otherwise is applied as a change (the [Changed] arm). *)
Definition apply_wire_event {IxState : Type}
    (ix_update : IxState -> SledTree -> SimpleVersion -> GenericKey ->
                 list Z -> Action -> IxState * result unit)
    (db : Db) (ev : WireEvent) : Db * result unit :=
  let common kd := mkHotSyncEvent (w_tree_name ev) (w_key ev) (w_source_addr ev) kd in
  let kd :=
    match w_kind ev with
    | WMetaChanged m mi => MetaChanged m mi
    | WCreatedOrChanged m mi bytes evo di =>
        match (default ∅ (db !! w_tree_name ev)) !! to_bytes (w_key ev) with
        | None => Created m bytes mi di evo
        | Some _ => Changed m mi bytes di evo
        end
    | WRemoved => Removed
    end in
  let '((db', _), r) := handle_incoming_record ix_update db None (common kd) in
  (db', r).

Record RelayState := mkRelayState {
  rdb : Db;
  (** the [_removed_records] tree: [tree_name || 8-byte key] *)
  removed : gset (list Z);
  rborrows : Borrows;
  broadcast : list WireEvent;
  bcast_closed : bool;
}.

Record ConnState := mkConnState {
  remote_addr : N;
  info : option ClientInfo;
}.

Definition string_bytes (s : string) : list Z :=
  map (fun c => Z.of_nat (Ascii.nat_of_ascii c)) (String.list_ascii_of_string s).

Definition wire_meta_iteration (k : WireKind) : option N :=
  match k with
  | WMetaChanged _ mi => Some mi
  | WCreatedOrChanged _ mi _ _ _ => Some mi
  | WRemoved => None
  end.

Section Process.
Context {IxState : Type}.
Context (ix_update : IxState -> SledTree -> SimpleVersion -> GenericKey ->
                     list Z -> Action -> IxState * result unit).

(** Apply through the common handler, then re-broadcast with
    [source_addr = Some(state.remote_addr)]. *)
Definition apply_and_broadcast (st : RelayState) (cs : ConnState) (ev : WireEvent)
    : RelayState * result unit :=
  let '(db', r) := apply_wire_event ix_update (rdb st) ev in
  let st := mkRelayState db' (removed st) (rborrows st) (broadcast st) (bcast_closed st) in
  match r with
  | Err e => (st, Err e)
  | Ok _ =>
      if bcast_closed st then (st, Err PostageBroadcast) else
      let ev' := mkWireEvent (w_tree_name ev) (w_key ev) (Some (remote_addr cs)) (w_kind ev) in
      (mkRelayState (rdb st) (removed st) (rborrows st) (broadcast st ++ [ev'])
         (bcast_closed st), Ok tt)
  end.

(** [ArchivedEvent::HotSyncEvent(hot_sync_event)] arm of [process_message]. *)
Definition process_hot_sync (st : RelayState) (cs : ConnState) (ev : WireEvent)
    : RelayState * result unit :=
  match info cs with
  | None => (st, Ok tt)
  | Some client_info =>
      let tree_name := w_tree_name ev in
      let k := w_key ev in
      let removed_records_key := string_bytes tree_name ++ to_bytes k in
      match wire_meta_iteration (w_kind ev) with
      | Some mi =>
          if (mi =? 0)%N && negb (owns_key client_info tree_name k) then (st, Ok tt)
          else if bool_decide (removed_records_key ∈ removed st) then (st, Ok tt)
          else apply_and_broadcast st cs ev
      | None =>
          let bw := match rborrows st !! tree_name with
                    | Some bk => <[tree_name := delete k bk]> (rborrows st)
                    | None => rborrows st
                    end in
          let st := mkRelayState (rdb st) ({[removed_records_key]} ∪ removed st) bw
                      (broadcast st) (bcast_closed st) in
          apply_and_broadcast st cs ev
      end
  end.

End Process.

End Relay.

(* ------------------------------------------------------------------ *)
(** ** Type reflection (hills_base/src/simple_ast.rs) *)

Module SimpleAst.

Record StructField := mkStructField { ident : string; ty : string }.

#[global] Instance StructField_eq_dec : EqDecision StructField.
Proof. solve_decision. Defined.

Inductive EnumFields :=
| Named (fs : list StructField)
| Unnamed (tys : list string)
| Unit.

#[global] Instance EnumFields_eq_dec : EqDecision EnumFields.
Proof. solve_decision. Defined.

Record EnumVariant := mkEnumVariant { v_ident : string; v_fields : EnumFields }.

#[global] Instance EnumVariant_eq_dec : EqDecision EnumVariant.
Proof. solve_decision. Defined.

Inductive TypeInfo :=
| Struct (fields : list StructField)
| Enum (variants : list EnumVariant).

#[global] Instance TypeInfo_eq_dec : EqDecision TypeInfo.
Proof. solve_decision. Defined.

Record TypeCollection := mkTypeCollection {
  root : string;
  refs : gmap string TypeInfo;
}.

#[global] Instance TypeCollection_eq_dec : EqDecision TypeCollection.
Proof. solve_decision. Defined.

(** [#[derive(PartialEq)]] on [TypeCollection] and every type it contains:
    field by field, names included; [HashMap] equality is equality of the
    key/value sets, which is [gmap]'s equality. *)
Definition tc_eq (a b : TypeCollection) : bool := bool_decide (a = b).

End SimpleAst.

(** [impl Ord for SimpleVersion]: major first, then minor. *)
Definition sv_cmp (a b : SimpleVersion) : comparison :=
  if (major b <? major a)%N then Gt
  else if (major a <? major b)%N then Lt
  else N.compare (minor a) (minor b).

Definition sv_max (a b : SimpleVersion) : SimpleVersion :=
  match sv_cmp a b with Lt => b | _ => a end.

(** [TreeDescriptor { evolutions: HashMap<SimpleVersion, TypeCollection>,
    versioning }]; the map is keyed by [(major, minor)]. *)
Record TreeDescriptor := mkTreeDescriptor {
  evolutions : gmap (N * N) SimpleAst.TypeCollection;
  d_versioning : bool;
}.

Definition max_evolution (d : TreeDescriptor) : SimpleVersion :=
  map_fold (fun k _ acc => sv_max (mkSimpleVersion k.1 k.2) acc)
    (mkSimpleVersion 0 0) (evolutions d).

(** The checks of [HillsClient::open_cold_tree] that decide its result,
    given the stored descriptor of the tree ([None] when the tree is new);
    [current_tc] is the collection [V::reflect] builds. The descriptor
    and managed-tree writes are not modelled. *)
Definition open_cold_tree_check (key_tree_name tree_name : string) (versioning : bool)
    (evolution : SimpleVersion) (current_tc : SimpleAst.TypeCollection)
    (descriptor : option TreeDescriptor) : result unit :=
  if negb (String.eqb key_tree_name tree_name) then Err WrongKey
  else if String.prefix "_" tree_name then Err Usage
  else match descriptor with
  | Some d =>
      if negb (Bool.eqb versioning (d_versioning d)) then Err VersioningMismatch
      else match sv_cmp evolution (max_evolution d) with
           | Lt => Ok tt
           | Eq =>
               match evolutions d !! (major evolution, minor evolution) with
               | Some known_tc =>
                   if negb (SimpleAst.tc_eq current_tc known_tc)
                   then Err EvolutionMismatch else Ok tt
               | None => Ok tt
               end
           | Gt => Ok tt
           end
  | None => Ok tt
  end.

(* ------------------------------------------------------------------ *)
(** ** Key bytes and the key pool, continued (generic_key.rs, key_pool.rs) *)

(** [u32::from_be_bytes] on four bytes. *)
Definition from_be32 (b0 b1 b2 b3 : Z) : N :=
  Z.to_N (b0 * 16777216 + b1 * 65536 + b2 * 256 + b3)%Z.

(** [GenericKey::from_bytes] *)
Definition from_bytes (bytes : list Z) : option GenericKey :=
  match bytes with
  | [i0; i1; i2; i3; r0; r1; r2; r3] =>
      Some (mkGenericKey (from_be32 i0 i1 i2 i3) (from_be32 r0 r1 r2 r3))
  | _ => None
  end.

(** A sled key or value: a string of bytes. *)
Definition is_byte_string (l : list Z) : Prop := Forall (fun b => 0 <= b < 256)%Z l.

(** A [GenericKey] whose fields are [u32] values. *)
Definition u32_key (k : GenericKey) : Prop := id k < 2 ^ 32 /\ revision k < 2 ^ 32.

(** [KeyPool::push] *)
Definition KeyPool_push (p : KeyPool) (additional_range : N * N) : KeyPool :=
  mkKeyPool (ranges p ++ [additional_range]).

(** [KeyPool::total_keys_available]: [acc + r.end - r.start] in [u32], with
    the wrap-around of a release build. *)
Definition total_keys_available (p : KeyPool) : N :=
  fold_left (fun acc r => Z.to_N ((Z.of_N acc + Z.of_N r.2 - Z.of_N r.1) mod 2 ^ 32)%Z)
    (ranges p) 0.

(** [KeyPool::feed_for]: one transaction on the tree; the string error is
    the [Abort] of a failed [check_archived_root]. *)
Definition feed_for (tree : SledTree) (additional_range : N * N) : SledTree * result unit :=
  match tree !! KEY_POOL with
  | Some e =>
      match archived_key_pool e with
      | Err er => (tree, Err er)
      | Ok key_pool =>
          (<[KEY_POOL := EKeyPool (KeyPool_push key_pool additional_range)]> tree, Ok tt)
      end
  | None => (<[KEY_POOL := EKeyPool (mkKeyPool [additional_range])]> tree, Ok tt)
  end.

(** [KeyPool::stats_for] *)
Definition stats_for (tree : SledTree) : result N :=
  match tree !! KEY_POOL with
  | Some (EKeyPool key_pool) => Ok (total_keys_available key_pool)
  | Some (ERecord _) => Err RkyvDeserializeError
  | None => Ok 0
  end.

(** [n] successive calls of [KeyPool::get] on one pool, as the tests of
    key_pool.rs make them. *)
Fixpoint KeyPool_get_n (n : nat) (p : KeyPool) : list (option N) * KeyPool :=
  match n with
  | O => ([], p)
  | S n =>
      let '(r, p) := KeyPool_get p in
      let '(rs, p) := KeyPool_get_n n p in
      (r :: rs, p)
  end.

(** The ids a [Range<u32>] contains, in the order of its iterator. *)
Definition range_keys (r : N * N) : list N :=
  map N.of_nat (seq (N.to_nat r.1) (N.to_nat (r.2 - r.1))).

Definition pool_keys (p : KeyPool) : list N := concat (map range_keys (ranges p)).

(** A pool of [Range<u32>]s (ends below [2^32]) that are all non-empty, as
    [feed_for] receives them from the server's [KeySet] ranges. *)
Definition pool_well_formed (p : KeyPool) : Prop :=
  Forall (fun r => (r.1 < r.2 /\ r.2 < 2 ^ 32)%N) (ranges p).

(* ------------------------------------------------------------------ *)
(** ** Sled iteration *)

(** sled orders keys byte-wise (lexicographically). *)
Fixpoint key_ltb (a b : list Z) : bool :=
  match a, b with
  | _, [] => false
  | [], _ :: _ => true
  | x :: a', y :: b' => (x <? y)%Z || ((x =? y)%Z && key_ltb a' b')
  end.

Fixpoint insert_by_key (x : list Z * Entry) (l : list (list Z * Entry))
    : list (list Z * Entry) :=
  match l with
  | [] => [x]
  | y :: l' => if key_ltb x.1 y.1 then x :: l else y :: insert_by_key x l'
  end.

(** [tree.iter()]: the entries in key order. *)
Definition sled_iter (tree : SledTree) : list (list Z * Entry) :=
  foldr insert_by_key [] (map_to_list tree).

(* ------------------------------------------------------------------ *)
(** ** TypedTree, continued (hills/src/db.rs) *)

(** [RecordCheckOutState] *)
Module RecordCheckOutState.
Inductive t := Empty | WaitingFor (u : N) | CheckedOutBy (u : N) | CheckedOut.
End RecordCheckOutState.

Section TypedTreeMore.

Context {V IxState : Type}.
Context (decode : list Z -> option V) (evolution : SimpleVersion).

(** [TypedTree::checked_out_by] *)
Definition checked_out_by (t : @TypedTree IxState) (k : GenericKey) : RecordCheckOutState.t :=
  match borrows t !! tree_name t with
  | Some borrowed_keys =>
      match borrowed_keys !! k with
      | Some queue =>
          match head queue with
          | None => RecordCheckOutState.Empty
          | Some checked_out_by =>
              if bool_decide (checked_out_by = uuid t) then RecordCheckOutState.CheckedOut
              else if bool_decide (uuid t ∈ queue)
              then RecordCheckOutState.WaitingFor checked_out_by
              else RecordCheckOutState.CheckedOutBy checked_out_by
          end
      | None => RecordCheckOutState.Empty
      end
  | None => RecordCheckOutState.Empty
  end.

(** [TypedTree::get_archived]: [f] is given the validated value, or [None]
    when the key is absent. *)
Definition get_archived {R : Type} (t : @TypedTree IxState) (k : GenericKey)
    (f : option V -> R) : result R :=
  match tdata t !! to_bytes k with
  | Some e =>
      match archived_record e with
      | Err er => Err er
      | Ok r =>
          if decide (data_evolution r <> evolution) then Err EvolutionMismatch
          else match decode (data r) with
               | Some v => Ok (f (Some v))
               | None => Err RkyvDeserializeError
               end
      end
  | None => Ok (f None)
  end.

(** [TypedTree::all_revisions] *)
Definition all_revisions (t : @TypedTree IxState) : list GenericKey :=
  omap (fun kv => if bool_decide (kv.1 = KEY_POOL) then None else from_bytes kv.1)
    (sled_iter (tdata t)).

End TypedTreeMore.

(* ------------------------------------------------------------------ *)
(** ** Tree overviews (hills/src/sync_common.rs) *)

(** The loop of [send_tree_overviews] over one tree: the [records] map of
    its [TreeOverview] event, [RecordIteration] being
    [(meta_iteration, data_iteration)], or the error that ends the loop. *)
Fixpoint overview_records (l : list (list Z * Entry)) (records : gmap GenericKey (N * N))
    : result (gmap GenericKey (N * N)) :=
  match l with
  | [] => Ok records
  | (key_bytes, e) :: rest =>
      if bool_decide (key_bytes = KEY_POOL) then overview_records rest records else
      match from_bytes key_bytes with
      | None => Err Internal
      | Some key =>
          match archived_record e with
          | Err er => Err er
          | Ok record =>
              overview_records rest
                (<[key := (meta_iteration record, data_iteration record)]> records)
          end
      end
  end.

Definition tree_overview (tree : SledTree) : result (gmap GenericKey (N * N)) :=
  overview_records (sled_iter tree) ∅.

(** The loop of [compare_and_request_missing_records] over the received
    [records], in their iteration order. *)
Fixpoint missing_or_outdated (tree : SledTree) (records : list (GenericKey * (N * N)))
    (acc : list GenericKey) : result (list GenericKey) :=
  match records with
  | [] => Ok acc
  | (key, (remote_mi, remote_di)) :: rest =>
      match tree !! to_bytes key with
      | Some e =>
          match archived_record e with
          | Err er => Err er
          | Ok record =>
              if (data_iteration record <? remote_di) || (meta_iteration record <? remote_mi)
              then missing_or_outdated tree rest (acc ++ [key])
              else missing_or_outdated tree rest acc
          end
      | None => missing_or_outdated tree rest (acc ++ [key])
      end
  end.

(** [compare_and_request_missing_records] (sync_common.rs): the result holds
    the keys of the [RequestRecords] event sent back. *)
Definition compare_and_request_missing_records (db : Db) (tree_name : string)
    (records : list (GenericKey * (N * N))) : Db * result (list GenericKey) :=
  let '(db, tree) := open_tree db tree_name in
  (db, missing_or_outdated tree records []).

(* ------------------------------------------------------------------ *)
(** ** Relay, continued (hills/src/sync_server.rs) *)

(** The loop of the [CheckOut]/[Return] arm of [process_message]:
    [borrowed_keys.entry(key).or_default()], then a check-out appends the
    client when it is not queued yet, and a return pops the queue head when
    it is the client. *)
Fixpoint borrow_keys (is_checking_out : bool) (u : N) (keys : list GenericKey)
    (borrowed_keys : gmap GenericKey (list N)) (queue_changed : bool)
    : gmap GenericKey (list N) * bool :=
  match keys with
  | [] => (borrowed_keys, queue_changed)
  | key :: rest =>
      let queue := default [] (borrowed_keys !! key) in
      let '(queue, changed) :=
        if is_checking_out then
          if bool_decide (u ∈ queue) then (queue, false) else (queue ++ [u], true)
        else if bool_decide (head queue = Some u) then (tail queue, true)
        else (queue, false) in
      borrow_keys is_checking_out u rest (<[key := queue]> borrowed_keys)
        (queue_changed || changed)
  end.

(** The [CheckOut]/[Return] arm of [process_message]: the new borrows, the
    [BorrowsChanged] event broadcast (if any), and the result. *)
Definition checkout_or_return (borrows : Borrows) (bcast_closed : bool)
    (cs : Relay.ConnState) (is_checking_out : bool) (tree : string)
    (keys : list GenericKey) : Borrows * option (string * list GenericKey) * result unit :=
  match Relay.info cs with
  | None => (borrows, None, Ok tt)
  | Some client_info =>
      let borrowed_keys := default ∅ (borrows !! tree) in
      let '(borrowed_keys, queue_changed) :=
        borrow_keys is_checking_out (Relay.ci_uuid client_info) keys borrowed_keys false in
      let borrows := <[tree := borrowed_keys]> borrows in
      if queue_changed then
        if bcast_closed then (borrows, None, Err PostageBroadcast)
        else (borrows, Some (tree, keys), Ok tt)
      else (borrows, None, Ok tt)
  end.

(** [KEYS_PER_REQUEST] (hills/src/consts.rs) *)
Definition KEYS_PER_REQUEST : N := 1000.

(** The [GetKeySet] arm of [process_message]. [infos] maps a tree name to
    the [next_key] of its ["{tree}_info"] entry, [clients] is the [_clients]
    tree. Returns the new [infos], [clients] and connection state, and the
    range of the [KeySet] event sent. *)
Definition get_key_set (infos : gmap string N) (clients : gmap N Relay.ClientInfo)
    (cs : Relay.ConnState) (tree : string)
    : gmap string N * gmap N Relay.ClientInfo * Relay.ConnState * option (N * N) :=
  match Relay.info cs with
  | None => (infos, clients, cs, None)
  | Some client_info =>
      match infos !! tree with
      | None => (infos, clients, cs, None)
      | Some next_key =>
          let infos := <[tree := u32_add next_key KEYS_PER_REQUEST]> infos in
          let new_range := (next_key, u32_add next_key KEYS_PER_REQUEST) in
          let key_ranges :=
            match Relay.key_ranges client_info !! tree with
            | Some ranges => <[tree := ranges ++ [new_range]]> (Relay.key_ranges client_info)
            | None => <[tree := [new_range]]> (Relay.key_ranges client_info)
            end in
          let client_info :=
            Relay.mkClientInfo (Relay.ci_uuid client_info) key_ranges
              (Relay.subscribed_to client_info) (Relay.readable_name client_info) in
          (infos, <[Relay.ci_uuid client_info := client_info]> clients,
           Relay.mkConnState (Relay.remote_addr cs) (Some client_info), Some new_range)
      end
  end.

(** The [BroadcastEvent::Sync] arm of [ws_event_loop]: whether a broadcast
    event is sent on to this connection. *)
Definition relays_to (cs : Relay.ConnState) (ev : Relay.WireEvent) : bool :=
  negb (bool_decide (Relay.w_source_addr ev = Some (Relay.remote_addr cs))).

(* ------------------------------------------------------------------ *)
(** ** Evolution compatibility (hills_base/src/evolution_check.rs) *)

Module EvolutionCheck.
Import SimpleAst.

(** The loop [for (f, f_new) in prev.iter().zip(next.iter())] with
    [if f.ty != f_new.ty { return false; }]: [zip] stops at the shorter
    list. *)
Definition field_types_match (prev next : list StructField) : bool :=
  forallb (fun '(f, f_new) => String.eqb (ty f) (ty f_new)) (combine prev next).

(** [is_enum_fields_compatible] *)
Definition is_enum_fields_compatible (prev_field next_fields : EnumFields) : bool :=
  match prev_field with
  | Named prev_named =>
      match next_fields with
      | Named next_named =>
          if negb (Nat.eqb (length prev_named) (length next_named)) then false
          else field_types_match prev_named next_named
      | _ => false
      end
  | Unnamed prev_unnamed =>
      match next_fields with
      | Unnamed next_unnamed => bool_decide (prev_unnamed = next_unnamed)
      | _ => false
      end
  | Unit => bool_decide (next_fields = Unit)
  end.

(** [is_backwards_compatible]; both roots are looked up under the name of
    the previous root. *)
Definition is_backwards_compatible (previous next : TypeCollection) : bool :=
  match refs previous !! root previous with
  | None => false
  | Some prev_root =>
      match refs next !! root previous with
      | None => false
      | Some next_root =>
          match prev_root, next_root with
          | Struct prev_si, Struct next_si =>
              if Nat.ltb (length next_si) (length prev_si) then false
              else field_types_match prev_si next_si
          | Enum prev_ei, Enum next_ei =>
              if negb (Nat.eqb (length prev_ei) (length next_ei)) then false
              else forallb (fun '(f, f_new) => is_enum_fields_compatible (v_fields f) (v_fields f_new))
                     (combine prev_ei next_ei)
          | _, _ => false
          end
      end
  end.

End EvolutionCheck.

(* ------------------------------------------------------------------ *)
(** ** Concrete inputs *)

Module Fixtures.

(** A tree whose root type is a single [u32], serialised as one word. *)
Definition encode_n (n : N) : list Z := [Z.of_N n].
Definition decode_n (l : list Z) : option N :=
  match l with [z] => Some (Z.to_N z) | _ => None end.

Definition ev0 : SimpleVersion := mkSimpleVersion 0 0.

(** An indexer that accepts everything, and one that rejects everything. *)
Definition ix_ok (ix : unit) (_ : SledTree) (_ : SimpleVersion) (_ : GenericKey)
    (_ : list Z) (_ : Action) : unit * result unit := (ix, Ok tt).
Definition ix_fail (ix : unit) (_ : SledTree) (_ : SimpleVersion) (_ : GenericKey)
    (_ : list Z) (_ : Action) : unit * result unit := (ix, Err IndexError).

Definition node : N := 1.

Definition rec_at (k : GenericKey) (v : Version) (bytes : list Z) : Record :=
  mkRecord 0 (mkRecordMeta k v node "alice" 0 0 rkyv_version) 0 bytes ev0.

Definition k3 : GenericKey := mkGenericKey 3 0.
Definition k5 : GenericKey := mkGenericKey 5 0.

Definition pool_5_10 : SledTree := {[ KEY_POOL := EKeyPool (mkKeyPool [(5, 10)]) ]}.

Definition mk_tree (name : string) (d : SledTree) (versioned : bool) (b : Borrows)
    : @TypedTree unit :=
  mkTypedTree name d versioned "alice" node [tt] b false [] false [].

(** "items": un-versioned, key pool [5..10), record 3.0 checked out by us. *)
Definition items : @TypedTree unit :=
  mk_tree "items" (<[to_bytes k3 := ERecord (rec_at k3 NonVersioned [7%Z])]> pool_5_10)
    false {[ "items" := {[ k3 := [node] ]} ]}.

(** "docs": versioned; revision 0.0 is [Draft(1)], revision 0.1 exists as
    [Draft(0)] and is checked out by us. *)
Definition docs : @TypedTree unit :=
  mk_tree "docs"
    (<[to_bytes (mkGenericKey 0 0) := ERecord (rec_at (mkGenericKey 0 0) (Draft 1) [1%Z])]>
     {[ to_bytes (mkGenericKey 0 1) := ERecord (rec_at (mkGenericKey 0 1) (Draft 0) [2%Z]) ]})
    true {[ "docs" := {[ mkGenericKey 0 1 := [node] ]} ]}.

Definition tc_named (field : string) : SimpleAst.TypeCollection :=
  SimpleAst.mkTypeCollection "Item"
    {[ "Item" := SimpleAst.Struct [SimpleAst.mkStructField field "u32"] ]}.

Definition items_descriptor : TreeDescriptor :=
  mkTreeDescriptor {[ (0, 0) := tc_named "x" ]} false.

Definition relay_client : Relay.ClientInfo :=
  Relay.mkClientInfo 2 {[ "items" := [(100, 200)] ]} ∅ "bob".

Definition relay_state0 : Relay.RelayState := Relay.mkRelayState ∅ ∅ ∅ [] false.

Definition items_fresh : @TypedTree unit :=
  mk_tree "items" pool_5_10 false ∅.

Definition meta_db : Db :=
  {[ "items" := {[ to_bytes k5 := ERecord (rec_at k5 (Draft 0) [7%Z]) ]} ]}.

Definition meta_event : HotSyncEvent :=
  mkHotSyncEvent "items" k5 None
    (MetaChanged (mkRecordMeta k5 (Released 0) 2 "bob" 5 0 rkyv_version) 3).

Definition unowned_create : Relay.WireEvent :=
  Relay.mkWireEvent "items" (mkGenericKey 42 0) None
    (Relay.WCreatedOrChanged (rec_at (mkGenericKey 42 0) (Draft 0) [1%Z]).(meta)
       0 [1%Z] ev0 0).

(** A key pool with the ranges [0..2) and [10..11). *)
Definition pool_two : KeyPool := mkKeyPool [(0, 2); (10, 11)].

(** A relay whose database holds [meta_db] and where client 2 holds the
    check-out of 5.0 in "items". *)
Definition relay_state1 : Relay.RelayState :=
  Relay.mkRelayState meta_db ∅ {[ "items" := {[ k5 := [2] ]} ]} [] false.

Definition relay_conn : Relay.ConnState := Relay.mkConnState 9 (Some relay_client).

Definition removed_k5 : Relay.WireEvent := Relay.mkWireEvent "items" k5 None Relay.WRemoved.

Definition meta_k5 : Relay.WireEvent :=
  Relay.mkWireEvent "items" k5 None
    (Relay.WMetaChanged (mkRecordMeta k5 (Released 0) 2 "bob" 5 0 rkyv_version) 3).

(** Check-out queues of "items": node 2 holds 3.0, node 1 waits for it. *)
Definition queues : Borrows := {[ "items" := {[ k3 := [2; 1] ]} ]}.

(** [items] as seen by node 1 while node 2 holds the check-out of 3.0. *)
Definition items_waiting : @TypedTree unit := mk_tree "items" (tdata items) false queues.

(** An enum root with a unit and a one-field tuple variant. *)
Definition tc_enum (variant : string) (field_ty : string) : SimpleAst.TypeCollection :=
  SimpleAst.mkTypeCollection "E"
    {[ "E" := SimpleAst.Enum [SimpleAst.mkEnumVariant "A" SimpleAst.Unit;
                              SimpleAst.mkEnumVariant variant (SimpleAst.Unnamed [field_ty])] ]}.

(** A struct root with two fields. *)
Definition tc_two (f1 f2 : string) : SimpleAst.TypeCollection :=
  SimpleAst.mkTypeCollection "Item"
    {[ "Item" := SimpleAst.Struct [SimpleAst.mkStructField f1 "u32";
                                   SimpleAst.mkStructField f2 "String"] ]}.

End Fixtures.

(* ================================================================== *)
(** * Properties *)

Section TypedTreeProps.

Context {V IxState : Type}.
Context (encode : V -> list Z) (decode : list Z -> option V).
Context (evolution : SimpleVersion).
Context (ix_update : IxState -> SledTree -> SimpleVersion -> GenericKey ->
                     list Z -> Action -> IxState * result unit).

Local Abbreviation TT := (@TypedTree IxState).
Local Abbreviation insert := (insert encode evolution ix_update).
Local Abbreviation update := (update encode evolution ix_update).
Local Abbreviation remove := (remove evolution ix_update).
Local Abbreviation get := (@get V IxState decode evolution).

Lemma is_checked_out_false (t : TT) (k : GenericKey) :
  (forall bk q, borrows t !! tree_name t = Some bk -> bk !! k = Some q ->
                head q <> Some (uuid t)) ->
  is_checked_out t k = false.
Proof.
  intros Hq. unfold is_checked_out.
  destruct (borrows t !! tree_name t) as [bk|] eqn:Hb; [|done].
  destruct (bk !! k) as [q|] eqn:Hk; [|done].
  apply bool_decide_eq_false. eapply Hq; eauto.
Qed.

Lemma is_checked_out_true (t : TT) (k : GenericKey) :
  is_checked_out t k = true ->
  exists bk q, borrows t !! tree_name t = Some bk /\ bk !! k = Some q /\
               head q = Some (uuid t).
Proof.
  unfold is_checked_out.
  destruct (borrows t !! tree_name t) as [bk|] eqn:Hb; [|done].
  destruct (bk !! k) as [q|] eqn:Hk; [|done].
  intros H. apply bool_decide_eq_true in H. eauto.
Qed.

(** C2: a node that is not at the head of the key's check-out queue in the
    local borrows mirror (the queue being empty or absent included) gets a
    [Usage] error from both [update] and [remove], and the tree (records,
    key pool, indexes, channels) is left as it was. *)
Theorem update_remove_need_queue_head (now : Z) (t : TT) (k : GenericKey) (v : V) :
  (forall bk q, borrows t !! tree_name t = Some bk -> bk !! k = Some q ->
                head q <> Some (uuid t)) ->
  update now k v t = (t, Err Usage) /\ remove k t = (t, Err Usage).
Proof.
  intros Hq. pose proof (is_checked_out_false t k Hq) as Hc.
  unfold TypedTreeDb.update, TypedTreeDb.remove. rewrite Hc. done.
Qed.

(** Only the queue head can succeed: a successful [update] or [remove]
    implies the node is at the head of the key's queue. *)
Lemma update_ok_queue_head (now : Z) (t t' : TT) (k : GenericKey) (v : V) :
  update now k v t = (t', Ok tt) ->
  exists bk q, borrows t !! tree_name t = Some bk /\ bk !! k = Some q /\
               head q = Some (uuid t).
Proof.
  intros H. apply is_checked_out_true.
  destruct (is_checked_out t k) eqn:Hc; [done|].
  unfold TypedTreeDb.update in H. rewrite Hc in H. done.
Qed.

(** C9: [get] on a missing key is [RecordNotFound]; on a stored record
    whose [data_evolution] differs from [V::evolution()] it is
    [EvolutionMismatch]; a value is returned only when the evolutions are
    equal, and it is the decoding of the stored data. *)
Theorem get_errors (t : TT) (k : GenericKey) :
  (tdata t !! to_bytes k = None -> get t k = Err RecordNotFound) /\
  (forall r, tdata t !! to_bytes k = Some (ERecord r) ->
             data_evolution r <> evolution -> get t k = Err EvolutionMismatch) /\
  (forall v, get t k = Ok v ->
             exists r, tdata t !! to_bytes k = Some (ERecord r) /\
                       data_evolution r = evolution /\ decode (data r) = Some v).
Proof.
  unfold TypedTreeDb.get. split; [|split].
  - by intros ->.
  - intros r -> Hne. simpl. by rewrite decide_True.
  - intros v H. destruct (tdata t !! to_bytes k) as [e|]; [|done].
    destruct e as [r|p]; simpl in H; [|done].
    case_decide as Hd; [done|].
    destruct (decode (data r)) eqn:Hdec; [|done].
    injection H as <-. exists r. repeat split; [|done].
    destruct (decide (data_evolution r = evolution)); [done|contradiction].
Qed.

(** C10: [meta] on a missing key succeeds with [None], while [get] on the
    same key fails with [RecordNotFound]. *)
Theorem meta_missing_is_none (t : TT) (k : GenericKey) :
  tdata t !! to_bytes k = None ->
  meta_of t k = Ok None /\ get t k = Err RecordNotFound.
Proof. intros H. unfold meta_of, TypedTreeDb.get. by rewrite H. Qed.


Lemma pool_get_key_revision (d d' : SledTree) (k : GenericKey) :
  pool_get_key d = (d', Ok k) -> revision k = 0.
Proof.
  unfold pool_get_key.
  destruct (d !! KEY_POOL) as [[r|p]|]; simpl; try done.
  destruct (KeyPool_get p) as [[n|] p']; [|done].
  by intros [= _ <-].
Qed.

Lemma send_change_fields (t t' : TT) (c : RecordHotChange) :
  send_change t c = Some t' ->
  tdata t' = tdata t /\ versioning t' = versioning t /\ indexers t' = indexers t.
Proof. unfold send_change. destruct (cmd_closed t); [done|]. by intros [= <-]. Qed.

Lemma notify_fields (t : TT) (k : GenericKey) (ck : ChangeKind) :
  tdata (notify t k ck) = tdata t /\ versioning (notify t k ck) = versioning t /\
  indexers (notify t k ck) = indexers t.
Proof. unfold notify. by destruct (updates_full t). Qed.

(** C3: when [insert v] succeeds with key [K], [K.revision = 0]; the record
    stored under [K] has [meta_iteration = 0], [data_iteration = 0] and the
    version [Draft(0)] on a versioned tree, [NonVersioned] otherwise; [get K]
    then returns [v] and [meta K] reports iterations [(0, _, 0)]. The
    hypothesis on [decode]/[encode] is rkyv's round trip of [Evolving(V)]. *)
Theorem insert_then_get (now : Z) (v : V) (t t' : TT) (k : GenericKey) :
  decode (encode v) = Some v ->
  insert now v t = (t', Ok k) ->
  revision k = 0 /\
  (exists r, tdata t' !! to_bytes k = Some (ERecord r) /\
             meta_iteration r = 0 /\ data_iteration r = 0 /\
             version (meta r) = (if versioning t then Draft 0 else NonVersioned)) /\
  get t' k = Ok v /\
  (exists m, meta_of t' k = Ok (Some (0, m, 0, evolution))).
Proof.
  intros Hrt. unfold TypedTreeDb.insert.
  destruct (pool_get_key (tdata t)) as [d1 [gk|e]] eqn:Hp; [|done].
  simpl.
  destruct (d1 !! to_bytes gk) as [x|] eqn:Hex; [done|].
  destruct (run_indexers ix_update (indexers t) d1 evolution gk (encode v) Insert)
    as [ixs [[]|e]]; [|done].
  simpl.
  match goal with
  | |- context [send_change ?t0 ?c] => destruct (send_change t0 c) as [t2|] eqn:Hs
  end; [|done].
  intros [= <- <-].
  apply send_change_fields in Hs as (Hd & Hv & _).
  destruct (notify_fields t2 gk CreateOrChange) as (Hd' & Hv' & _).
  simpl in Hd, Hv.
  split; [eapply pool_get_key_revision; eauto|].
  unfold TypedTreeDb.get, meta_of. rewrite Hd', Hd, lookup_insert_eq. simpl.
  split; [eexists; split; [done|]; simpl; done|].
  rewrite decide_False by (intros Hn; by apply Hn). rewrite Hrt.
  split; [done|]. by eexists.
Qed.

End TypedTreeProps.

Section SyncCommonProps.

Context {IxState : Type}.
Context (ix_update : IxState -> SledTree -> SimpleVersion -> GenericKey ->
                     list Z -> Action -> IxState * result unit).

Local Abbreviation handle := (handle_incoming_record ix_update).

Lemma open_tree_spec (db : Db) (n : string) :
  (open_tree db n).1 !! n = Some (open_tree db n).2 /\
  (open_tree db n).2 = default ∅ (db !! n) /\
  (forall n', n' <> n -> (open_tree db n).1 !! n' = db !! n').
Proof.
  unfold open_tree. destruct (db !! n) as [tr|] eqn:H; simpl.
  - done.
  - split; [by rewrite lookup_insert_eq|]. split; [done|].
    intros n' Hn. by rewrite lookup_insert_ne.
Qed.

Lemma open_tree_present (db : Db) (n : string) (tr : SledTree) :
  db !! n = Some tr -> open_tree db n = (db, tr).
Proof. unfold open_tree. by intros ->. Qed.

(** C5: a [MetaChanged] event for a key with no stored record is dropped
    (no record is created; at most the empty tree is opened); one whose
    [meta_iteration] is not above the stored one is dropped; otherwise the
    record is rewritten with the new meta and meta-iteration and the stored
    data bytes, data-iteration and data-evolution. The indexers are never
    touched. *)
Theorem meta_changed_applies (db : Db) (ixm : option (gmap string (list IxState)))
    (tree : string) (k : GenericKey) (src : option N) (m : RecordMeta) (mi : N)
    (db' : Db) (ixm' : option (gmap string (list IxState))) (res : result unit) :
  handle db ixm (mkHotSyncEvent tree k src (MetaChanged m mi)) = ((db', ixm'), res) ->
  let tr := default ∅ (db !! tree) in
  ixm' = ixm /\
  (tr !! to_bytes k = None ->
     res = Ok tt /\ db' = (open_tree db tree).1 /\
     default ∅ (db' !! tree) !! to_bytes k = None) /\
  (forall old, tr !! to_bytes k = Some (ERecord old) -> (mi <= meta_iteration old)%N ->
     res = Ok tt /\ db' = db) /\
  (forall old, tr !! to_bytes k = Some (ERecord old) -> (meta_iteration old < mi)%N ->
     res = Ok tt /\
     db' = <[tree := <[to_bytes k := ERecord (mkRecord mi m (data_iteration old)
                                     (data old) (data_evolution old))]> tr]> db).
Proof.
  unfold handle_incoming_record. simpl.
  destruct (open_tree_spec db tree) as (H1 & H2 & _).
  destruct (open_tree db tree) as [db1 tr1] eqn:Ho. simpl in H1, H2.
  intros H. rewrite <- H2.
  destruct (tr1 !! to_bytes k) as [e|] eqn:Hk.
  - destruct e as [old|p]; simpl in H.
    2:{ injection H as <- <- <-. split; [done|]. split; [done|].
        split; intros ? Hx; discriminate. }
    destruct (mi <=? meta_iteration old)%N eqn:Hle.
    + injection H as <- <- <-. split; [done|]. split; [done|].
      split.
      * intros old' [= <-] _. split; [done|].
        unfold open_tree in Ho. destruct (db !! tree); [by injection Ho as <-|].
        injection Ho as _ <-. by rewrite lookup_empty in Hk.
      * intros old' [= <-] Hlt. apply N.leb_le in Hle. lia.
    + injection H as <- <- <-. split; [done|]. split; [done|].
      assert (Hdb : db1 = db).
      { unfold open_tree in Ho. destruct (db !! tree); [by injection Ho as <-|].
        injection Ho as _ <-. by rewrite lookup_empty in Hk. }
      subst db1. split.
      * intros old' [= <-] Hle'. apply N.leb_gt in Hle. lia.
      * intros old' [= <-] _. done.
  - injection H as <- <- <-. split; [done|]. split.
    + intros _. split; [done|]. split; [done|]. by rewrite H1.
    + split; intros ? Hx; discriminate.
Qed.

(** C8: applying the same [Removed] event a second time changes neither the
    store nor the indexes; when the first application succeeds it has
    deleted the record and the second one also succeeds. *)
Theorem removed_idempotent (db : Db) (ixm : option (gmap string (list IxState)))
    (tree : string) (k : GenericKey) (src : option N) :
  let ev := mkHotSyncEvent tree k src Removed in
  let '(s1, r1) := handle db ixm ev in
  let '(s2, r2) := handle s1.1 s1.2 ev in
  s2 = s1 /\
  (r1 = Ok tt -> r2 = Ok tt /\ default ∅ (s1.1 !! tree) !! to_bytes k = None).
Proof.
  unfold handle_incoming_record. simpl.
  destruct (open_tree_spec db tree) as (H1 & H2 & _).
  destruct (open_tree db tree) as [db1 tr1] eqn:Ho. simpl in H1, H2.
  destruct (tr1 !! to_bytes k) as [e|] eqn:Hk.
  - destruct e as [r|p]; simpl.
    + rewrite (open_tree_present _ tree (delete (to_bytes k) tr1))
        by (by rewrite lookup_insert_eq).
      rewrite lookup_delete_eq. simpl.
      split; [done|]. intros _. split; [done|].
      rewrite lookup_insert_eq; simpl; by rewrite lookup_delete_eq.
    + rewrite (open_tree_present _ tree tr1 H1), Hk. simpl. done.
  - simpl. rewrite (open_tree_present _ tree tr1 H1), Hk. simpl.
    split; [done|]. intros _. split; [done|]. by rewrite H1.
Qed.

End SyncCommonProps.

Section RelayProps.

Context {IxState : Type}.
Context (ix_update : IxState -> SledTree -> SimpleVersion -> GenericKey ->
                     list Z -> Action -> IxState * result unit).

Lemma owns_key_false (ci : Relay.ClientInfo) (tree : string) (k : GenericKey) :
  (forall rs, Relay.key_ranges ci !! tree = Some rs ->
     forall r, r ∈ rs -> ~ (r.1 <= id k < r.2)%N) ->
  Relay.owns_key ci tree k = false.
Proof.
  intros Hr. unfold Relay.owns_key.
  destruct (Relay.key_ranges ci !! tree) as [rs|] eqn:Hk; [|done].
  apply not_true_is_false. intros Hex.
  apply existsb_exists in Hex as [r [Hin Hc]].
  apply andb_true_iff in Hc as [H1 H2].
  apply N.leb_le in H1. apply N.ltb_lt in H2.
  apply (Hr rs eq_refl r); [by apply list_elem_of_In | lia].
Qed.

(** C6: a hot-sync event whose kind carries [meta_iteration = 0], sent by a
    registered client none of whose key ranges for the tree contains the
    key's id, is dropped by the relay: the store, the tombstone set, the
    check-out queues and the broadcast channel are all left unchanged. *)
Theorem relay_drops_unowned_create (st : Relay.RelayState) (cs : Relay.ConnState)
    (ev : Relay.WireEvent) (ci : Relay.ClientInfo) :
  Relay.info cs = Some ci ->
  Relay.wire_meta_iteration (Relay.w_kind ev) = Some 0%N ->
  (forall rs, Relay.key_ranges ci !! Relay.w_tree_name ev = Some rs ->
     forall r, r ∈ rs -> ~ (r.1 <= id (Relay.w_key ev) < r.2)%N) ->
  Relay.process_hot_sync ix_update st cs ev = (st, Ok tt).
Proof.
  intros Hi Hm Hr. apply owns_key_false in Hr.
  unfold Relay.process_hot_sync. rewrite Hi, Hm, Hr. done.
Qed.

End RelayProps.

Section TypedTreeFailures.

Context {V IxState : Type}.
Context (encode : V -> list Z) (evolution : SimpleVersion).
Context (ix_update : IxState -> SledTree -> SimpleVersion -> GenericKey ->
                     list Z -> Action -> IxState * result unit).

Local Abbreviation TT := (@TypedTree IxState).
Local Abbreviation insert := (insert encode evolution ix_update).
Local Abbreviation update := (update encode evolution ix_update).
Local Abbreviation remove := (remove evolution ix_update).

Lemma with_indexers_data (t : TT) ixs : tdata (with_indexers t ixs) = tdata t.
Proof. done. Qed.

Lemma update_err_frame (now : Z) (k : GenericKey) (v : V) (t t' : TT) (e : Error) :
  update now k v t = (t', Err e) -> e <> Mpsc -> tdata t' = tdata t.
Proof.
  unfold TypedTreeDb.update. intros H Hne.
  repeat (case_match; simplify_eq/=; try done).
Qed.

Lemma remove_err_frame (k : GenericKey) (t t' : TT) (e : Error) :
  remove k t = (t', Err e) -> e <> Mpsc -> tdata t' = tdata t.
Proof.
  unfold TypedTreeDb.remove. intros H Hne.
  repeat (case_match; simplify_eq/=; try done).
Qed.

Lemma pool_get_key_frame (d d' : SledTree) (r : result GenericKey) (kb : list Z) :
  pool_get_key d = (d', r) -> kb <> KEY_POOL -> d' !! kb = d !! kb.
Proof.
  unfold pool_get_key. intros H Hne.
  repeat (case_match; simplify_eq/=; try done).
  by rewrite lookup_insert_ne.
Qed.

Lemma to_bytes_length (k : GenericKey) : length (to_bytes k) = 8%nat.
Proof. done. Qed.

Lemma to_bytes_not_key_pool (k : GenericKey) : to_bytes k <> KEY_POOL.
Proof. intros H. pose proof (f_equal length H) as Hl. rewrite to_bytes_length in Hl. done. Qed.

Lemma pool_get_key_ok (d d1 : SledTree) (k : GenericKey) :
  pool_get_key d = (d1, Ok k) ->
  exists p p', d !! KEY_POOL = Some (EKeyPool p) /\ KeyPool_get p = (Some (id k), p') /\
    revision k = 0 /\ d1 = <[KEY_POOL := EKeyPool p']> d.
Proof.
  unfold pool_get_key. destruct (d !! KEY_POOL) as [[r|p]|]; cbn [archived_key_pool]; try done.
  destruct (KeyPool_get p) as [[n|] p'] eqn:Hg; [|done].
  intros [= <- <-]. by exists p, p'.
Qed.

Lemma pool_get_key_err (d d1 : SledTree) (e : Error) :
  pool_get_key d = (d1, Err e) -> d1 = d.
Proof.
  unfold pool_get_key. intros H.
  repeat (case_match; simplify_eq/=; try done).
Qed.

(** A failed [insert] either got no key from the pool and changed nothing,
    or keeps the key it took consumed (the pool stays as [KeyPool::get]
    left it) and, unless the failure is the closed command channel, leaves
    every record entry as it was. *)
Lemma insert_err_pool (now : Z) (v : V) (t t' : TT) (e : Error) :
  insert now v t = (t', Err e) ->
  (pool_get_key (tdata t) = (tdata t, Err e) /\ tdata t' = tdata t) \/
  exists k p p', tdata t !! KEY_POOL = Some (EKeyPool p) /\
    KeyPool_get p = (Some (id k), p') /\
    tdata t' !! KEY_POOL = Some (EKeyPool p') /\
    (forall kb, kb <> to_bytes k -> kb <> KEY_POOL -> tdata t' !! kb = tdata t !! kb) /\
    (e <> Mpsc -> tdata t' !! to_bytes k = tdata t !! to_bytes k).
Proof.
  unfold TypedTreeDb.insert.
  destruct (pool_get_key (tdata t)) as [d1 [gk|er]] eqn:Hp.
  - destruct (pool_get_key_ok _ _ _ Hp) as (p & p' & Hpool & Hg & _ & ->).
    intros H. right. exists gk, p, p'. split; [done|]. split; [done|].
    assert (Hk : to_bytes gk <> KEY_POOL) by apply to_bytes_not_key_pool.
    revert H. cbn [tdata with_data].
    rewrite (lookup_insert_ne _ KEY_POOL (to_bytes gk)) by (apply not_eq_sym, Hk).
    destruct (tdata t !! to_bytes gk) as [e0|] eqn:Hfree.
    + intros [= <- <-]. cbn [tdata with_data]. rewrite lookup_insert_eq. split; [done|].
      split; [intros kb H1 H2; by rewrite lookup_insert_ne by done|].
      intros _. by rewrite lookup_insert_ne by done.
    + destruct (run_indexers ix_update _ _ _ _ _ _) as [ixs [[]|er]].
      * cbn [tdata with_data with_indexers versioning uuid username indexers tree_name].
        destruct (send_change _ _) as [t2|] eqn:Hs; [done|].
        intros [= <- <-]. cbn [tdata with_data with_indexers].
        rewrite lookup_insert_ne by done. rewrite lookup_insert_eq. split; [done|].
        split; [|done].
        intros kb H1 H2. by rewrite lookup_insert_ne, lookup_insert_ne by done.
      * intros [= <- <-]. cbn [tdata with_data with_indexers]. rewrite lookup_insert_eq.
        split; [done|]. split; [intros kb H1 H2; by rewrite lookup_insert_ne by done|].
        intros _. by rewrite lookup_insert_ne by done.
  - intros [= <- <-]. left. rewrite (pool_get_key_err _ _ _ Hp) in Hp |- *. done.
Qed.

Lemma insert_err_frame (now : Z) (v : V) (t t' : TT) (e : Error) (kb : list Z) :
  insert now v t = (t', Err e) -> e <> Mpsc -> kb <> KEY_POOL ->
  tdata t' !! kb = tdata t !! kb.
Proof.
  unfold TypedTreeDb.insert. intros H Hne Hkb.
  destruct (pool_get_key (tdata t)) as [d1 r] eqn:Hp.
  pose proof (pool_get_key_frame _ _ _ kb Hp Hkb) as Hf.
  repeat (case_match; simplify_eq/=; try done).
Qed.

Lemma run_indexers_logged_length (ixs : list IxState) tr evo k bytes a :
  length (run_indexers_logged ix_update ixs tr evo k bytes a) = length ixs.
Proof. induction ixs; simpl; auto. Qed.

Lemma remove_indexer_errors_logged (k : GenericKey) (t : TT) (r : Record) :
  is_checked_out t k = true ->
  tdata t !! to_bytes k = Some (ERecord r) ->
  is_released (version (meta r)) = false ->
  cmd_closed t = false ->
  (remove k t).2 = Ok (Some tt) /\ tdata (remove k t).1 !! to_bytes k = None.
Proof.
  intros Hc Hk Hr Hcmd. unfold TypedTreeDb.remove.
  rewrite Hc, Hk. simpl. rewrite Hr. unfold send_change. simpl. rewrite Hcmd.
  unfold notify. simpl. destruct (updates_full t); simpl; by rewrite lookup_delete_eq.
Qed.


Lemma insert_ok_indexers (now : Z) (v : V) (t : TT) (k : GenericKey) :
  (insert now v t).2 = Ok k ->
  exists d1, pool_get_key (tdata t) = (d1, Ok k) /\
    (run_indexers ix_update (indexers t) d1 evolution k (encode v) Insert).2 = Ok tt.
Proof.
  unfold TypedTreeDb.insert. intros H.
  destruct (pool_get_key (tdata t)) as [d1 [gk|er]] eqn:Hp; simpl in H; [|done].
  destruct (d1 !! to_bytes gk); [done|].
  destruct (run_indexers ix_update (indexers t) d1 evolution gk (encode v) Insert)
    as [ixs [[]|er]] eqn:Hi; simpl in H; [|done].
  repeat (case_match; simplify_eq/=; try done).
  exists d1. by rewrite Hi.
Qed.

Lemma update_ok_indexers (now : Z) (k : GenericKey) (v : V) (t : TT) :
  (update now k v t).2 = Ok tt ->
  (run_indexers ix_update (indexers t) (tdata t) evolution k (encode v) Update).2 = Ok tt.
Proof.
  unfold TypedTreeDb.update. intros H.
  repeat (case_match; simplify_eq/=; try done).
  match goal with |- Ok ?a = Ok tt => by destruct a end.
Qed.

(** C4 (as the code has it): a failed [update] or [remove] leaves the
    tree's entries (records and key pool) unchanged unless the failure is
    the closed command channel reported after the write. A failed [insert]
    either got no key from the pool and changed nothing, or keeps the key
    it took consumed (the pool stays as [KeyPool::get] left it); its record
    entries are unchanged unless the failure is the closed command channel
    reported after the new record was written. An indexer error is fatal to
    [insert] and [update] (they succeed only when every indexer accepted),
    while [remove] logs indexer errors and still deletes the record. *)
Theorem mutation_failure_effects :
  (forall now k v (t t' : TT) e,
     update now k v t = (t', Err e) -> e <> Mpsc -> tdata t' = tdata t) /\
  (forall k (t t' : TT) e,
     remove k t = (t', Err e) -> e <> Mpsc -> tdata t' = tdata t) /\
  (forall now v (t t' : TT) e,
     insert now v t = (t', Err e) ->
     (pool_get_key (tdata t) = (tdata t, Err e) /\ tdata t' = tdata t) \/
     exists k p p', tdata t !! KEY_POOL = Some (EKeyPool p) /\
       KeyPool_get p = (Some (id k), p') /\
       tdata t' !! KEY_POOL = Some (EKeyPool p') /\
       (forall kb, kb <> to_bytes k -> kb <> KEY_POOL -> tdata t' !! kb = tdata t !! kb) /\
       (e <> Mpsc -> tdata t' !! to_bytes k = tdata t !! to_bytes k)) /\
  (forall now v (t : TT) k,
     (insert now v t).2 = Ok k ->
     exists d1, pool_get_key (tdata t) = (d1, Ok k) /\
       (run_indexers ix_update (indexers t) d1 evolution k (encode v) Insert).2 = Ok tt) /\
  (forall now k v (t : TT),
     (update now k v t).2 = Ok tt ->
     (run_indexers ix_update (indexers t) (tdata t) evolution k (encode v) Update).2 = Ok tt) /\
  (forall k (t : TT) r,
     is_checked_out t k = true -> tdata t !! to_bytes k = Some (ERecord r) ->
     is_released (version (meta r)) = false -> cmd_closed t = false ->
     (remove k t).2 = Ok (Some tt) /\ tdata (remove k t).1 !! to_bytes k = None).
Proof.
  split; [exact update_err_frame|].
  split; [exact remove_err_frame|].
  split; [exact insert_err_pool|].
  split; [exact insert_ok_indexers|].
  split; [exact update_ok_indexers|].
  exact remove_indexer_errors_logged.
Qed.

End TypedTreeFailures.

(* ------------------------------------------------------------------ *)
(** ** Schema equality *)

Lemma tc_eq_spec (a b : SimpleAst.TypeCollection) : SimpleAst.tc_eq a b = true <-> a = b.
Proof. unfold SimpleAst.tc_eq. apply bool_decide_eq_true. Qed.

(** C7 (as the code has it): equality of type collections is the derived
    structural equality, names of roots, fields and variants included; when
    a tree is opened at the same evolution as the newest stored one, the
    open succeeds exactly when the reflected collection equals the stored
    one in that sense (otherwise it fails with [EvolutionMismatch]). *)
Theorem tc_equality_is_structural :
  (forall a b, SimpleAst.tc_eq a b = true <-> a = b) /\
  (forall tn vers evo cur d known,
     String.prefix "_" tn = false -> vers = d_versioning d ->
     sv_cmp evo (max_evolution d) = Eq ->
     evolutions d !! (major evo, minor evo) = Some known ->
     (open_cold_tree_check tn tn vers evo cur (Some d) = Ok tt <-> cur = known) /\
     (open_cold_tree_check tn tn vers evo cur (Some d) = Err EvolutionMismatch <->
      cur <> known)).
Proof.
  split; [exact tc_eq_spec|].
  intros tn vers evo cur d known Hp Hv Hc Hk.
  unfold open_cold_tree_check. rewrite String.eqb_refl, Hp, Hv, Bool.eqb_reflx.
  simpl. rewrite Hc, Hk.
  destruct (SimpleAst.tc_eq cur known) eqn:He; simpl.
  - apply tc_eq_spec in He. subst. split; [done|]. split; [done|]. by intros [].
  - assert (cur <> known) as Hne.
    { intros ->. rewrite (proj2 (tc_eq_spec known known) eq_refl) in He. done. }
    split; [split; [done|by intros ?]|]. done.
Qed.

(** C7 counterexample: two collections that differ only in the name of a
    struct field are not equal, and opening the tree at the stored
    evolution with the renamed field fails with [EvolutionMismatch]. *)
Lemma tc_field_rename_not_equal :
  SimpleAst.tc_eq (Fixtures.tc_named "x") (Fixtures.tc_named "y") = false /\
  open_cold_tree_check "items" "items" false Fixtures.ev0 (Fixtures.tc_named "y")
    (Some Fixtures.items_descriptor) = Err EvolutionMismatch.
Proof. split; vm_compute; reflexivity. Qed.

(* ------------------------------------------------------------------ *)
(** ** Concrete runs *)

(** C1: on the versioned tree [docs], revision 0.0 is [Draft(1)] (not
    [Released]); updating 0.1 still succeeds and rewrites 0.1, because the
    previous-revision check only rejects [Draft(0)]. *)
Theorem update_accepts_unreleased_previous :
  version (meta (Fixtures.rec_at (mkGenericKey 0 0) (Draft 1) [1%Z])) = Draft 1 /\
  tdata Fixtures.docs !! to_bytes (mkGenericKey 0 0) =
    Some (ERecord (Fixtures.rec_at (mkGenericKey 0 0) (Draft 1) [1%Z])) /\
  (update Fixtures.encode_n Fixtures.ev0 Fixtures.ix_ok 0 (mkGenericKey 0 1) 9
     Fixtures.docs).2 = Ok tt /\
  get Fixtures.decode_n Fixtures.ev0
    (update Fixtures.encode_n Fixtures.ev0 Fixtures.ix_ok 0 (mkGenericKey 0 1) 9
       Fixtures.docs).1 (mkGenericKey 0 1) = Ok 9.
Proof. repeat split; vm_compute; reflexivity. Qed.

(** C4 counterexample: with an indexer that rejects, [insert] on [items]
    fails with the indexer's error but the key pool has lost key 5; and
    [remove] of the checked-out record 3.0 succeeds and deletes it despite
    the indexer error. *)
Lemma indexer_error_side_effects :
  tdata Fixtures.items !! KEY_POOL = Some (EKeyPool (mkKeyPool [(5, 10)])) /\
  (insert Fixtures.encode_n Fixtures.ev0 Fixtures.ix_fail 0 7 Fixtures.items).2
    = Err IndexError /\
  tdata (insert Fixtures.encode_n Fixtures.ev0 Fixtures.ix_fail 0 7 Fixtures.items).1
    !! KEY_POOL = Some (EKeyPool (mkKeyPool [(6, 10)])) /\
  (remove Fixtures.ev0 Fixtures.ix_fail Fixtures.k3 Fixtures.items).2 = Ok (Some tt) /\
  tdata (remove Fixtures.ev0 Fixtures.ix_fail Fixtures.k3 Fixtures.items).1
    !! to_bytes Fixtures.k3 = None.
Proof. repeat split; vm_compute; reflexivity. Qed.

(* ------------------------------------------------------------------ *)
(** ** The theorems at concrete inputs *)

Lemma update_remove_need_queue_head_witness :
  uuid Fixtures.items_waiting = 1 /\
  borrows Fixtures.items_waiting !! "items" = Some {[ Fixtures.k3 := [2; 1] ]} /\
  tdata Fixtures.items_waiting !! to_bytes Fixtures.k3 <> None /\
  update Fixtures.encode_n Fixtures.ev0 Fixtures.ix_ok 0 Fixtures.k3 7 Fixtures.items_waiting
    = (Fixtures.items_waiting, Err Usage) /\
  remove Fixtures.ev0 Fixtures.ix_ok Fixtures.k3 Fixtures.items_waiting
    = (Fixtures.items_waiting, Err Usage).
Proof.
  split; [reflexivity|]. split; [reflexivity|]. split; [vm_compute; discriminate|].
  apply (update_remove_need_queue_head Fixtures.encode_n Fixtures.ev0 Fixtures.ix_ok
           0 Fixtures.items_waiting Fixtures.k3 7).
  intros bk q Hb Hq. vm_compute in Hb. injection Hb as <-.
  vm_compute in Hq. injection Hq as <-. vm_compute. discriminate.
Defined.

Lemma insert_then_get_witness :
  let run := insert Fixtures.encode_n Fixtures.ev0 Fixtures.ix_ok 0 7 Fixtures.items_fresh in
  revision Fixtures.k5 = 0 /\
  (exists r, tdata run.1 !! to_bytes Fixtures.k5 = Some (ERecord r) /\
             meta_iteration r = 0 /\ data_iteration r = 0 /\
             version (meta r) = NonVersioned) /\
  get Fixtures.decode_n Fixtures.ev0 run.1 Fixtures.k5 = Ok 7 /\
  (exists m, meta_of run.1 Fixtures.k5 = Ok (Some (0, m, 0, Fixtures.ev0))).
Proof.
  apply (insert_then_get Fixtures.encode_n Fixtures.decode_n Fixtures.ev0 Fixtures.ix_ok
           0 7 Fixtures.items_fresh _ Fixtures.k5).
  - reflexivity.
  - vm_compute. reflexivity.
Defined.

Lemma meta_changed_applies_witness :
  let run := handle_incoming_record Fixtures.ix_ok Fixtures.meta_db None Fixtures.meta_event in
  let tr := default ∅ (Fixtures.meta_db !! "items") in
  run.1.2 = None /\
  (tr !! to_bytes Fixtures.k5 = None ->
     run.2 = Ok tt /\ run.1.1 = (open_tree Fixtures.meta_db "items").1 /\
     default ∅ (run.1.1 !! "items") !! to_bytes Fixtures.k5 = None) /\
  (forall old, tr !! to_bytes Fixtures.k5 = Some (ERecord old) ->
     (3 <= meta_iteration old)%N -> run.2 = Ok tt /\ run.1.1 = Fixtures.meta_db) /\
  (forall old, tr !! to_bytes Fixtures.k5 = Some (ERecord old) ->
     (meta_iteration old < 3)%N ->
     run.2 = Ok tt /\
     run.1.1 = <[ "items" := <[to_bytes Fixtures.k5 := ERecord (mkRecord 3
                 (mkRecordMeta Fixtures.k5 (Released 0) 2 "bob" 5 0 rkyv_version)
                 (data_iteration old) (data old) (data_evolution old))]> tr]> Fixtures.meta_db).
Proof.
  apply (meta_changed_applies Fixtures.ix_ok Fixtures.meta_db None "items" Fixtures.k5 None
           (mkRecordMeta Fixtures.k5 (Released 0) 2 "bob" 5 0 rkyv_version) 3).
  vm_compute. reflexivity.
Defined.

Lemma relay_drops_unowned_create_witness :
  Relay.process_hot_sync Fixtures.ix_ok Fixtures.relay_state0
    (Relay.mkConnState 9 (Some Fixtures.relay_client)) Fixtures.unowned_create
  = (Fixtures.relay_state0, Ok tt).
Proof.
  apply (relay_drops_unowned_create Fixtures.ix_ok _ _ _ Fixtures.relay_client).
  - reflexivity.
  - reflexivity.
  - intros rs Hrs r Hr. vm_compute in Hrs. injection Hrs as <-.
    apply list_elem_of_singleton in Hr. subst r. simpl. lia.
Defined.

Lemma meta_missing_is_none_witness :
  meta_of Fixtures.items_fresh Fixtures.k5 = Ok None /\
  get Fixtures.decode_n Fixtures.ev0 Fixtures.items_fresh Fixtures.k5 = Err RecordNotFound.
Proof.
  apply (meta_missing_is_none Fixtures.decode_n Fixtures.ev0 Fixtures.items_fresh Fixtures.k5).
  vm_compute. reflexivity.
Defined.

(* ================================================================== *)
(** * Further properties of the key, key pool, tree, sync and relay code *)

Lemma from_be32_be32 (x : N) :
  x < 2 ^ 32 ->
  from_be32 (Z.of_N (N.shiftr x 24 mod 256)) (Z.of_N (N.shiftr x 16 mod 256))
    (Z.of_N (N.shiftr x 8 mod 256)) (Z.of_N (x mod 256)) = x.
Proof.
  intros Hx. unfold from_be32.
  rewrite !N.shiftr_div_pow2. rewrite <- (N2Z.id x) at 5. f_equal.
  rewrite !N2Z.inj_mod, !N2Z.inj_div. simpl.
  assert (0 <= Z.of_N x < 4294967296)%Z by lia.
  Z.div_mod_to_equations. lia.
Qed.

Lemma be32_from_be32 (a b c d : Z) :
  (0 <= a < 256)%Z -> (0 <= b < 256)%Z -> (0 <= c < 256)%Z -> (0 <= d < 256)%Z ->
  be32 (from_be32 a b c d) = [a; b; c; d] /\ from_be32 a b c d < 2 ^ 32.
Proof.
  intros Ha Hb Hc Hd. unfold be32, from_be32.
  rewrite !N.shiftr_div_pow2.
  rewrite !N2Z.inj_mod, !N2Z.inj_div, Z2N.id by lia. simpl.
  split; [|lia].
  repeat f_equal; Z.div_mod_to_equations; lia.
Qed.

Lemma from_bytes_to_bytes_u32 (k : GenericKey) :
  u32_key k -> from_bytes (to_bytes k) = Some k.
Proof.
  destruct k as [i r]. intros [Hi Hr]. cbn [id revision] in Hi, Hr.
  unfold to_bytes, be32. cbn [app from_bytes id revision].
  by rewrite !from_be32_be32.
Qed.

Lemma from_bytes_inverse_aux (l : list Z) :
  (from_bytes l = None <-> length l <> 8%nat) /\
  (forall k, is_byte_string l -> from_bytes l = Some k -> to_bytes k = l /\ u32_key k).
Proof.
  split.
  - destruct l as [|a [|b [|c [|d [|e [|f [|g [|h [|i l]]]]]]]]]; cbn [from_bytes length]; split; try done; intros H; lia.
  - intros k Hb H.
    destruct l as [|a [|b [|c [|d [|e [|f [|g [|h [|i l]]]]]]]]]; cbn [from_bytes] in H; try discriminate.
    injection H as <-. unfold is_byte_string in Hb.
    repeat match goal with H : Forall _ (_ :: _) |- _ => inversion H; subst; clear H end.
    unfold to_bytes, u32_key; cbn [id revision].
    destruct (be32_from_be32 a b c d) as [-> ?]; try done.
    destruct (be32_from_be32 e f g h) as [-> ?]; try done.
Qed.


(** X1: [GenericKey::from_bytes] inverts [to_bytes]: a key whose id and revision fit in [u32] is read back unchanged from its 8 big-endian bytes. *)
Theorem from_bytes_to_bytes (k : GenericKey) :
  u32_key k -> from_bytes (to_bytes k) = Some k.
Proof. exact (from_bytes_to_bytes_u32 k). Qed.

(** X2: [from_bytes] fails exactly on slices whose length is not 8; on every byte string of length 8 it succeeds, with a key whose fields fit in [u32] and whose [to_bytes] gives the slice back. *)
Theorem from_bytes_inverse (l : list Z) :
  (from_bytes l = None <-> length l <> 8%nat) /\
  (is_byte_string l -> length l = 8%nat ->
   exists k, from_bytes l = Some k /\ to_bytes k = l /\ u32_key k).
Proof.
  destruct (from_bytes_inverse_aux l) as [Hn Hs]. split; [exact Hn|].
  intros Hb Hl. destruct (from_bytes l) as [k|] eqn:Hf.
  - exists k. split; [done|]. by apply Hs.
  - exfalso. by apply Hn.
Qed.

Lemma length_range_keys (r : N * N) : length (range_keys r) = N.to_nat (r.2 - r.1).
Proof. unfold range_keys. by rewrite length_map, length_seq. Qed.

Lemma range_keys_cons (s e : N) :
  s < e -> range_keys (s, e) = s :: range_keys (s + 1, e).
Proof.
  intros H. unfold range_keys. cbn [fst snd].
  replace (N.to_nat (e - s)) with (S (N.to_nat (e - (s + 1)))) by lia.
  cbn [seq map]. rewrite N2Nat.id. do 4 f_equal. lia.
Qed.

Lemma range_keys_nil (s e : N) : e <= s -> range_keys (s, e) = [].
Proof. intros H. unfold range_keys. cbn. by replace (N.to_nat (e - s)) with 0%nat by lia. Qed.

Lemma KeyPool_get_step (p : KeyPool) (s e : N) (rest : list (N * N)) :
  pool_well_formed p -> ranges p = (s, e) :: rest ->
  exists p', KeyPool_get p = (Some s, p') /\ pool_well_formed p' /\
             pool_keys p = s :: pool_keys p'.
Proof.
  intros Hwf Hr. unfold pool_well_formed in Hwf. rewrite Hr in Hwf.
  inversion Hwf as [|? ? [Hse Hbd] Hrest]; subst. cbn [fst snd] in Hse, Hbd.
  unfold KeyPool_get, pool_keys. rewrite Hr. cbn [map concat].
  rewrite (range_keys_cons s e Hse).
  assert (Hadd : u32_add s 1 = s + 1) by (unfold u32_add; apply N.mod_small; lia).
  rewrite Hadd.
  destruct (e <=? s + 1) eqn:He.
  - eexists. split; [done|]. split; [done|].
    apply N.leb_le in He. rewrite range_keys_nil by lia. done.
  - eexists. split; [done|]. split.
    + apply N.leb_gt in He. constructor; [simpl; lia|done].
    + done.
Qed.

Lemma pool_keys_nil (p : KeyPool) :
  pool_well_formed p -> pool_keys p = [] -> ranges p = [].
Proof.
  unfold pool_well_formed, pool_keys. destruct (ranges p) as [|[s e] rest]; [done|].
  intros Hwf. inversion Hwf as [|? ? [Hse _]]; subst. cbn in *. rewrite range_keys_cons by done. done.
Qed.

Lemma KeyPool_get_n_S (m : nat) (p : KeyPool) :
  KeyPool_get_n (S m) p =
    let '(r, p) := KeyPool_get p in let '(rs, p) := KeyPool_get_n m p in (r :: rs, p).
Proof. done. Qed.

(** X3: On a pool of non-empty [u32] ranges, successive [KeyPool::get] calls hand out every id of the ranges once, in order, then [None], and leave an empty pool. *)
Theorem KeyPool_get_hands_out_pool_keys (p : KeyPool) :
  pool_well_formed p ->
  KeyPool_get_n (S (length (pool_keys p))) p =
    (map Some (pool_keys p) ++ [None], mkKeyPool []).
Proof.
  remember (length (pool_keys p)) as n eqn:Hn. revert p Hn.
  induction n as [|n IH]; intros p Hn Hwf.
  - symmetry in Hn. apply length_zero_iff_nil in Hn.
    pose proof (pool_keys_nil p Hwf Hn) as Hr. rewrite Hn.
    destruct p as [rs]. cbn in Hr. subst rs. done.
  - destruct (ranges p) as [|[s e] rest] eqn:Hr.
    + unfold pool_keys in Hn. rewrite Hr in Hn. done.
    + destruct (KeyPool_get_step p s e rest Hwf Hr) as (p' & Hg & Hwf' & Hk).
      rewrite KeyPool_get_n_S, Hg.
      rewrite Hk in Hn. cbn [length] in Hn. injection Hn as Hn.
      rewrite (IH p' Hn Hwf'). rewrite Hk. done.
Qed.

Lemma total_fold (rs : list (N * N)) (acc : N) :
  Forall (fun r => r.1 <= r.2) rs ->
  acc + N.of_nat (length (concat (map range_keys rs))) < 2 ^ 32 ->
  fold_left (fun acc r => Z.to_N ((Z.of_N acc + Z.of_N r.2 - Z.of_N r.1) mod 2 ^ 32)%Z) rs acc
    = acc + N.of_nat (length (concat (map range_keys rs))).
Proof.
  revert acc. induction rs as [|[s e] rest IH]; intros acc Hf Hlt; cbn [fold_left].
  - simpl. lia.
  - inversion Hf as [|? ? Hse Hrest]; subst. cbn [fst snd] in Hse.
    cbn [map concat] in *. rewrite length_app, length_range_keys in *. cbn [fst snd] in *.
    rewrite Z.mod_small by lia.
    rewrite IH; [|done|lia]. lia.
Qed.

(** X4: On a pool of non-empty [u32] ranges holding fewer than 2^32 ids, [total_keys_available] is the number of ids the pool still holds. *)
Theorem total_keys_available_counts (p : KeyPool) :
  pool_well_formed p -> N.of_nat (length (pool_keys p)) < 2 ^ 32 ->
  total_keys_available p = N.of_nat (length (pool_keys p)).
Proof.
  intros Hwf Hlt. unfold total_keys_available, pool_keys.
  rewrite total_fold; [lia| |unfold pool_keys in Hlt; lia].
  eapply Forall_impl; [exact Hwf|]. intros r H; simpl in *; lia.
Qed.

(** X5: [feed_for] with a range [s..e) on a tree whose [stats_for] is [n] succeeds, and [stats_for] then reports [n + (e - s)] (no [u32] overflow assumed). *)
Theorem feed_for_stats_for (tree : SledTree) (n s e : N) :
  stats_for tree = Ok n -> s <= e -> n + (e - s) < 2 ^ 32 ->
  exists tree', feed_for tree (s, e) = (tree', Ok tt) /\ stats_for tree' = Ok (n + (e - s)).
Proof.
  unfold stats_for, feed_for.
  destruct (tree !! KEY_POOL) as [[r|p]|] eqn:Hk; intros Hs Hse Hlt; try discriminate.
  - injection Hs as <-. cbn [archived_key_pool]. eexists. split; [done|].
    rewrite lookup_insert_eq. f_equal.
    unfold total_keys_available, KeyPool_push in *. cbn [ranges]. rewrite fold_left_app.
    cbn [fold_left fst snd]. rewrite Z.mod_small by lia. lia.
  - injection Hs as <-. eexists. split; [done|].
    rewrite lookup_insert_eq. f_equal.
    unfold total_keys_available. cbn. rewrite Z.mod_small by lia. lia.
Qed.

Section TypedTreeQueries.
Context {V IxState : Type}.
Context (decode : list Z -> option V) (evolution : SimpleVersion).
Local Abbreviation TT := (@TypedTree IxState).

(** X6: [checked_out_by] is [CheckedOut] exactly when [is_checked_out] holds; [WaitingFor h] means [h] heads the queue and this node is queued behind it; [CheckedOutBy h] means [h] heads the queue and this node is not queued. *)
Theorem checked_out_by_spec (t : TT) (k : GenericKey) :
  (checked_out_by t k = RecordCheckOutState.CheckedOut <-> is_checked_out t k = true) /\
  (forall h, checked_out_by t k = RecordCheckOutState.WaitingFor h ->
     exists bk q, borrows t !! tree_name t = Some bk /\ bk !! k = Some (h :: q) /\
                  h <> uuid t /\ uuid t ∈ q) /\
  (forall h, checked_out_by t k = RecordCheckOutState.CheckedOutBy h ->
     exists bk q, borrows t !! tree_name t = Some bk /\ bk !! k = Some (h :: q) /\
                  uuid t ∉ h :: q).
Proof.
  unfold checked_out_by, is_checked_out.
  destruct (borrows t !! tree_name t) as [bk|] eqn:Hb; [|done].
  destruct (bk !! k) as [q|] eqn:Hk; [|done].
  destruct q as [|h q]; cbn [head].
  - rewrite (bool_decide_eq_false_2 (None = Some (uuid t))) by done. done.
  - case_bool_decide as Hh.
    + subst. rewrite (bool_decide_eq_true_2 (Some (uuid t) = Some (uuid t))) by done. done.
    + rewrite (bool_decide_eq_false_2 (Some h = Some (uuid t))) by congruence.
      case_bool_decide as Hin.
      * split; [done|]. split; [|done]. intros h' [= <-]. exists bk, q.
        repeat split; try done. apply elem_of_cons in Hin as [Heq|Hin]; [|done].
        exfalso. apply Hh. by symmetry.
      * split; [done|]. split; [done|]. intros h' [= <-]. exists bk, q. done.
Qed.

(** X7: [get_archived] agrees with [get]: it applies [f] to the value [get] returns, gives [f None] where [get] reports [RecordNotFound], and otherwise fails with [get]'s error. *)
Theorem get_archived_is_get {R : Type} (t : TT) (k : GenericKey) (f : option V -> R) :
  get_archived decode evolution t k f =
    match @get V IxState decode evolution t k with
    | Ok v => Ok (f (Some v))
    | Err RecordNotFound => Ok (f None)
    | Err e => Err e
    end.
Proof.
  unfold get_archived, TypedTreeDb.get.
  destruct (tdata t !! to_bytes k) as [[r|p]|]; cbn [archived_record]; [|done|done].
  case_decide; [done|]. by destruct (decode (data r)).
Qed.

End TypedTreeQueries.

Lemma insert_by_key_perm (x : list Z * Entry) (l : list (list Z * Entry)) :
  insert_by_key x l ≡ₚ x :: l.
Proof.
  induction l as [|y l IH]; cbn [insert_by_key]; [done|].
  destruct (key_ltb x.1 y.1); [done|].
  rewrite IH. by constructor.
Qed.

Lemma sled_iter_perm (tree : SledTree) : sled_iter tree ≡ₚ map_to_list tree.
Proof.
  unfold sled_iter. induction (map_to_list tree) as [|x l IH]; cbn [foldr]; [done|].
  rewrite insert_by_key_perm, IH. done.
Qed.

Lemma elem_of_sled_iter (tree : SledTree) (kb : list Z) (e : Entry) :
  (kb, e) ∈ sled_iter tree <-> tree !! kb = Some e.
Proof. rewrite sled_iter_perm. apply elem_of_map_to_list. Qed.


(** X8: On a tree whose keys are byte strings, [all_revisions] lists exactly the keys with [u32] fields under whose bytes the tree holds an entry; the key pool entry is skipped. *)
Theorem all_revisions_spec {IxState : Type} (t : @TypedTree IxState) (k : GenericKey) :
  (forall kb, is_Some (tdata t !! kb) -> is_byte_string kb) ->
  k ∈ all_revisions t <-> u32_key k /\ is_Some (tdata t !! to_bytes k).
Proof.
  intros Hbytes. unfold all_revisions. rewrite list_elem_of_omap. split.
  - intros ([kb e] & Hin & Hk). cbn [fst] in Hk.
    apply elem_of_sled_iter in Hin.
    case_bool_decide; [done|].
    destruct (proj2 (from_bytes_inverse_aux kb) k) as [<- Hu]; [apply Hbytes; by eexists|done|].
    split; [done|by eexists].
  - intros [Hu [e He]]. exists (to_bytes k, e). split; [by apply elem_of_sled_iter|].
    cbn [fst]. rewrite bool_decide_eq_false_2 by apply to_bytes_not_key_pool.
    by apply from_bytes_to_bytes_u32.
Qed.

Lemma missing_or_outdated_spec (tree : SledTree) (recs : list (GenericKey * (N * N)))
    (acc ks : list GenericKey) :
  missing_or_outdated tree recs acc = Ok ks ->
  forall k, k ∈ ks <-> k ∈ acc \/
    exists mi di, (k, (mi, di)) ∈ recs /\
      (tree !! to_bytes k = None \/
       exists r, tree !! to_bytes k = Some (ERecord r) /\
                 (data_iteration r < di \/ meta_iteration r < mi)).
Proof.
  revert acc. induction recs as [|[key [rmi rdi]] rest IH]; intros acc H k;
    cbn [missing_or_outdated] in H.
  - injection H as <-. split; [by left|]. intros [?|(? & ? & Hin & _)]; [done|].
    by apply elem_of_nil in Hin.
  - destruct (tree !! to_bytes key) as [[r|p]|] eqn:Hl; cbn [archived_record] in H; [|done|].
    + assert (Hc : (data_iteration r <? rdi) || (meta_iteration r <? rmi) = true <->
                   (data_iteration r < rdi \/ meta_iteration r < rmi))
        by (rewrite orb_true_iff, !N.ltb_lt; done).
      destruct ((data_iteration r <? rdi) || (meta_iteration r <? rmi)) eqn:Hb.
      * rewrite (IH _ H k), elem_of_app, list_elem_of_singleton.
        setoid_rewrite elem_of_cons. split.
        -- intros [[?| ->]|(mi & di & ? & ?)]; [by left| |right; exists mi, di; split; [by right|done]].
           right; exists rmi, rdi; split; [by left|]. right; exists r; split; [done|by apply Hc].
        -- intros [?|(mi & di & [Heq|?] & Hc')]; [by left; left| |right; exists mi, di; split; [done|done]].
           injection Heq as -> -> ->. by left; right.
      * rewrite (IH _ H k). setoid_rewrite elem_of_cons. split.
        -- intros [?|(mi & di & ? & ?)]; [by left|right; exists mi, di; split; [by right|done]].
        -- intros [?|(mi & di & [Heq|?] & Hc')]; [by left| |right; exists mi, di; split; [done|done]].
           injection Heq as -> -> ->. rewrite Hl in Hc'.
           destruct Hc' as [?|(r' & Hr' & Hc')]; [done|]. injection Hr' as <-.
           apply Hc in Hc'. discriminate.
    + rewrite (IH _ H k), elem_of_app, list_elem_of_singleton.
      setoid_rewrite elem_of_cons. split.
      * intros [[?| ->]|(mi & di & ? & ?)]; [by left| |right; exists mi, di; split; [by right|done]].
        right; exists rmi, rdi; split; [by left|by left].
      * intros [?|(mi & di & [Heq|?] & Hc)]; [by left; left| |right; exists mi, di; split; [done|done]].
        injection Heq as -> -> ->. by left; right.
Qed.

Lemma from_bytes_injective_bytes (kb1 kb2 : list Z) (k : GenericKey) :
  is_byte_string kb1 -> is_byte_string kb2 ->
  from_bytes kb1 = Some k -> from_bytes kb2 = Some k -> kb1 = kb2.
Proof.
  intros H1 H2 E1 E2.
  destruct (proj2 (from_bytes_inverse_aux kb1) k H1 E1) as [<- _].
  destruct (proj2 (from_bytes_inverse_aux kb2) k H2 E2) as [<- _]. done.
Qed.

Lemma overview_records_spec (l : list (list Z * Entry)) (acc m : gmap GenericKey (N * N)) :
  NoDup l.*1 -> Forall is_byte_string l.*1 ->
  overview_records l acc = Ok m ->
  forall k it, m !! k = Some it <->
    (exists kb r, (kb, ERecord r) ∈ l /\ kb <> KEY_POOL /\ from_bytes kb = Some k /\
                  it = (meta_iteration r, data_iteration r)) \/
    (acc !! k = Some it /\
     ~ exists kb e, (kb, e) ∈ l /\ kb <> KEY_POOL /\ from_bytes kb = Some k).
Proof.
  revert acc. induction l as [|[kb0 e0] rest IH]; intros acc Hnd Hb H k it;
    cbn [overview_records] in H.
  - injection H as <-. split.
    + intros Hk. right. split; [done|]. intros (? & ? & Hin & _). by apply elem_of_nil in Hin.
    + intros [(? & ? & Hin & _)|[? _]]; [by apply elem_of_nil in Hin|done].
  - cbn [fmap list_fmap fst] in Hnd, Hb. apply NoDup_cons in Hnd as [Hnin Hnd].
    apply Forall_cons in Hb as [Hb0 Hb].
    case_bool_decide as Hkp.
    + rewrite (IH acc Hnd Hb H k it). setoid_rewrite elem_of_cons.
      split.
      * intros [(kb & r & Hin & ?)|[? Hne]]; [left; exists kb, r; by split; [right|]|].
        right. split; [done|]. intros (kb & e & [[= -> ->]|Hin] & Hne' & ?); [done|].
        apply Hne. by exists kb, e.
      * intros [(kb & r & [[= -> <-]|Hin] & Hne & ?)|[? Hne]]; [done|left; by exists kb, r|].
        right. split; [done|]. intros (kb & e & Hin & ?). apply Hne. exists kb, e. by split; [right|].
    + destruct (from_bytes kb0) as [k0|] eqn:Hk0; [|done].
      destruct e0 as [r0|p0]; cbn [archived_record] in H; [|done].
      rewrite (IH _ Hnd Hb H k it). setoid_rewrite elem_of_cons.
      assert (Hfresh : forall kb e, (kb, e) ∈ rest -> from_bytes kb = Some k0 -> False).
      { intros kb e Hin Hkb. apply Hnin.
        assert (Hkbb : is_byte_string kb).
        { rewrite Forall_forall in Hb. apply Hb. apply list_elem_of_In, in_map_iff.
          exists (kb, e). split; [done|]. by apply list_elem_of_In. }
        rewrite (from_bytes_injective_bytes kb0 kb k0 Hb0 Hkbb Hk0 Hkb).
        apply list_elem_of_In, in_map_iff. exists (kb, e). split; [done|].
        by apply list_elem_of_In. }
      destruct (decide (k = k0)) as [->|Hne].
      * rewrite lookup_insert_eq. split.
        -- intros [(kb & r & Hin & _ & Hkb & _)|[[= <-] _]]; [exfalso; by eapply Hfresh|].
           left. exists kb0, r0. split; [by left|done].
        -- intros [(kb & r & [[= -> <-]|Hin] & _ & Hkb & ->)|[_ Hn]].
           ++ right. split; [done|]. intros (kb1 & e1 & Hin1 & _ & Hkb1). by eapply Hfresh.
           ++ exfalso. by eapply Hfresh.
           ++ exfalso. apply Hn. exists kb0, (ERecord r0). split; [by left|done].
      * rewrite lookup_insert_ne by congruence. split.
        -- intros [(kb & r & Hin & ? & ? & ?)|[? Hn]]; [left; exists kb, r; by split; [right|]|].
           right. split; [done|]. intros (kb & e & [[= -> ->]|Hin] & ? & Hkb); [congruence|].
           apply Hn. by exists kb, e.
        -- intros [(kb & r & [[= -> <-]|Hin] & ? & Hkb & ?)|[? Hn]]; [congruence|left; by exists kb, r|].
           right. split; [done|]. intros (kb & e & Hin & ?). apply Hn. exists kb, e. by split; [right|].
Qed.

Lemma sled_iter_keys (tree : SledTree) :
  NoDup (sled_iter tree).*1 /\
  ((forall kb, is_Some (tree !! kb) -> is_byte_string kb) -> Forall is_byte_string (sled_iter tree).*1).
Proof.
  split.
  - rewrite sled_iter_perm. apply NoDup_fst_map_to_list.
  - intros Hb. apply Forall_forall. intros kb Hin.
    apply list_elem_of_In, in_map_iff in Hin as ([kb' e] & <- & Hin).
    apply list_elem_of_In, elem_of_sled_iter in Hin. apply Hb. by eexists.
Qed.

Lemma tree_overview_lookup (tree : SledTree) (m : gmap GenericKey (N * N)) :
  (forall kb, is_Some (tree !! kb) -> is_byte_string kb) ->
  tree_overview tree = Ok m ->
  forall k it, m !! k = Some it <->
    u32_key k /\ exists r, tree !! to_bytes k = Some (ERecord r) /\
                           it = (meta_iteration r, data_iteration r).
Proof.
  intros Hb H k it. destruct (sled_iter_keys tree) as [Hnd Hbs].
  rewrite (overview_records_spec _ _ _ Hnd (Hbs Hb) H k it).
  rewrite lookup_empty. split.
  - intros [(kb & r & Hin & _ & Hk & ->)|[? _]]; [|done].
    apply elem_of_sled_iter in Hin.
    destruct (proj2 (from_bytes_inverse_aux kb) k) as [<- Hu]; [apply Hb; by eexists|done|].
    split; [done|]. by exists r.
  - intros [Hu (r & Hr & ->)]. left. exists (to_bytes k), r.
    split; [by apply elem_of_sled_iter|]. split; [apply to_bytes_not_key_pool|].
    split; [by apply from_bytes_to_bytes_u32|done].
Qed.

Lemma overview_records_ok_iff (l : list (list Z * Entry)) (acc : gmap GenericKey (N * N)) :
  (exists m, overview_records l acc = Ok m) <->
  forall kb e, (kb, e) ∈ l -> kb <> KEY_POOL -> length kb = 8%nat /\ exists r, e = ERecord r.
Proof.
  revert acc. induction l as [|[kb0 e0] rest IH]; intros acc; cbn [overview_records].
  - split; [intros _ kb e Hin; by apply elem_of_nil in Hin|by eexists].
  - case_bool_decide as Hkp.
    + rewrite IH. split.
      * intros Hall kb e Hin Hne. apply elem_of_cons in Hin as [[= -> ->]|Hin]; [done|].
        by apply Hall.
      * intros Hall kb e Hin Hne. apply Hall; [by right|done].
    + destruct (from_bytes kb0) as [k|] eqn:Hf.
      * destruct e0 as [r|p]; cbn [archived_record].
        -- rewrite IH. split.
           ++ intros Hall kb e Hin Hne. apply elem_of_cons in Hin as [[= -> ->]|Hin].
              ** split; [|by exists r]. destruct (from_bytes_inverse_aux kb0) as [Hn _].
                 destruct (decide (length kb0 = 8%nat)) as [?|Hl]; [done|].
                 apply Hn in Hl. congruence.
              ** by apply Hall.
           ++ intros Hall kb e Hin Hne. apply Hall; [by right|done].
        -- split; [by intros [m Hm]|]. intros Hall.
           destruct (Hall kb0 (EKeyPool p)) as [_ [r Hr]]; [by left|done|done].
      * split; [by intros [m Hm]|]. intros Hall.
        destruct (Hall kb0 e0) as [Hl _]; [by left|done|].
        destruct (from_bytes_inverse_aux kb0) as [Hn _]. by apply Hn in Hf.
Qed.

(** X9: The overview of a tree succeeds exactly when every entry other than the key pool (which is skipped) has an 8-byte key and holds a record; when it succeeds on a tree with byte-string keys, it maps exactly the tree's records to their [(meta_iteration, data_iteration)]. *)
Theorem tree_overview_spec (tree : SledTree) :
  (forall kb, is_Some (tree !! kb) -> is_byte_string kb) ->
  ((exists m, tree_overview tree = Ok m) <->
   forall kb e, tree !! kb = Some e -> kb <> KEY_POOL ->
                length kb = 8%nat /\ exists r, e = ERecord r) /\
  forall m, tree_overview tree = Ok m ->
  forall k it, m !! k = Some it <->
    u32_key k /\ exists r, tree !! to_bytes k = Some (ERecord r) /\
                           it = (meta_iteration r, data_iteration r).
Proof.
  intros Hb. split.
  - unfold tree_overview. rewrite overview_records_ok_iff.
    split; intros Hall kb e He; apply Hall; by apply elem_of_sled_iter.
  - intros m. by apply tree_overview_lookup.
Qed.

(** X10: [compare_and_request_missing_records] requests exactly the keys of the received overview that are missing locally or whose local data or meta iteration is older than the received one. *)
Theorem compare_requests_missing_or_outdated (db db' : Db) (tree_name : string)
    (m : gmap GenericKey (N * N)) (ks : list GenericKey) :
  compare_and_request_missing_records db tree_name (map_to_list m) = (db', Ok ks) ->
  forall k, k ∈ ks <-> exists mi di, m !! k = Some (mi, di) /\
    (default ∅ (db !! tree_name) !! to_bytes k = None \/
     exists r, default ∅ (db !! tree_name) !! to_bytes k = Some (ERecord r) /\
               (data_iteration r < di \/ meta_iteration r < mi)).
Proof.
  unfold compare_and_request_missing_records.
  destruct (open_tree db tree_name) as [db1 tree] eqn:Ho. intros [= _ H] k.
  assert (Ht : tree = default ∅ (db !! tree_name)).
  { pose proof (proj1 (proj2 (open_tree_spec db tree_name))) as E. by rewrite Ho in E. }
  subst tree. rewrite (missing_or_outdated_spec _ _ _ _ H k).
  setoid_rewrite elem_of_map_to_list. split.
  - intros [Hin|?]; [by apply elem_of_nil in Hin|done].
  - intros ?. by right.
Qed.

Lemma missing_or_outdated_none (tree : SledTree) (recs : list (GenericKey * (N * N)))
    (acc : list GenericKey) :
  (forall k it, (k, it) ∈ recs -> exists r, tree !! to_bytes k = Some (ERecord r) /\
                                            it = (meta_iteration r, data_iteration r)) ->
  missing_or_outdated tree recs acc = Ok acc.
Proof.
  revert acc. induction recs as [|[key [rmi rdi]] rest IH]; intros acc Hall; [done|].
  cbn [missing_or_outdated].
  destruct (Hall key (rmi, rdi)) as (r & Hr & Hit); [by left|].
  injection Hit as -> ->. rewrite Hr. cbn [archived_record].
  rewrite !N.ltb_irrefl. cbn [orb]. apply IH.
  intros k it Hin. apply Hall. by right.
Qed.

(** X11: Comparing a tree against its own successful overview requests no record and leaves the database unchanged. *)
Theorem overview_requests_nothing (db : Db) (tree_name : string) (tree : SledTree)
    (m : gmap GenericKey (N * N)) :
  (forall kb, is_Some (tree !! kb) -> is_byte_string kb) ->
  db !! tree_name = Some tree ->
  tree_overview tree = Ok m ->
  compare_and_request_missing_records db tree_name (map_to_list m) = (db, Ok []).
Proof.
  intros Hb Hdb Hov. unfold compare_and_request_missing_records.
  rewrite (open_tree_present db tree_name tree Hdb). f_equal.
  apply missing_or_outdated_none. intros k it Hin.
  apply elem_of_map_to_list in Hin.
  apply (tree_overview_lookup tree m Hb Hov) in Hin as [_ Hr]. done.
Qed.

Section HandleMore.
Context {IxState : Type}.
Context (ix_update : IxState -> SledTree -> SimpleVersion -> GenericKey ->
                     list Z -> Action -> IxState * result unit).
Local Abbreviation handle := (handle_incoming_record ix_update).

(** X12: [handle_incoming_record] is idempotent: applying the same event again to its result changes nothing and gives the same result. *)
Theorem handle_incoming_record_idempotent (db : Db) (ixm : option (gmap string (list IxState)))
    (ev : HotSyncEvent) db1 ixm1 r1 :
  handle db ixm ev = ((db1, ixm1), r1) ->
  handle db1 ixm1 ev = ((db1, ixm1), r1).
Proof.
  unfold handle_incoming_record.
  destruct (open_tree db (ev_tree_name ev)) as [db0 tr0] eqn:Ho.
  pose proof (proj1 (open_tree_spec db (ev_tree_name ev))) as Hin.
  rewrite Ho in Hin. cbn [fst snd] in Hin.
  set (n := ev_tree_name ev) in *. set (kb := to_bytes (ev_key ev)).
  intros H.
  destruct (kind ev) as [m bytes mi di evo|m mi|m mi bytes di evo|];
    destruct (tr0 !! kb) as [[r|p]|] eqn:Hl; cbn [archived_record] in H;
    repeat match type of H with context [if ?b then _ else _] => destruct b eqn:? end;
    injection H as <- <- <-.
  all: try (rewrite (open_tree_present _ _ _ Hin), Hl; cbn [archived_record];
            repeat match goal with E : _ = true |- _ => rewrite E end; done).
  - (* Created, absent *)
    rewrite open_tree_present with (tr := <[kb := _]> tr0) by apply lookup_insert_eq.
    by rewrite lookup_insert_eq.
  - (* MetaChanged *)
    rewrite open_tree_present with (tr := <[kb := _]> tr0) by apply lookup_insert_eq.
    rewrite lookup_insert_eq. cbn [archived_record meta_iteration].
    by rewrite N.leb_refl.
  - (* Changed *)
    rewrite open_tree_present with (tr := <[kb := _]> tr0) by apply lookup_insert_eq.
    rewrite lookup_insert_eq. cbn [archived_record meta_iteration data_iteration].
    by rewrite N.leb_refl.
  - (* Removed *)
    rewrite open_tree_present with (tr := delete kb tr0) by apply lookup_insert_eq.
    by rewrite lookup_delete_eq.
Qed.

Lemma open_tree_default (db : Db) (n n' : string) :
  default ∅ ((open_tree db n).1 !! n') = default ∅ (db !! n').
Proof.
  unfold open_tree. destruct (db !! n) as [tr|] eqn:H; [done|]. cbn [fst].
  destruct (decide (n' = n)) as [->|Hne].
  - by rewrite lookup_insert_eq, H.
  - by rewrite lookup_insert_ne.
Qed.

(** X13: [handle_incoming_record] changes no entry other than the event's key in the event's tree, and a record kept at that key never sees its meta or data iteration decrease. *)
Theorem handle_incoming_record_frame_monotone (db : Db)
    (ixm : option (gmap string (list IxState))) (ev : HotSyncEvent) db1 ixm1 r1 :
  handle db ixm ev = ((db1, ixm1), r1) ->
  (forall n kb, (n, kb) <> (ev_tree_name ev, to_bytes (ev_key ev)) ->
     default ∅ (db1 !! n) !! kb = default ∅ (db !! n) !! kb) /\
  (forall r r',
     default ∅ (db !! ev_tree_name ev) !! to_bytes (ev_key ev) = Some (ERecord r) ->
     default ∅ (db1 !! ev_tree_name ev) !! to_bytes (ev_key ev) = Some (ERecord r') ->
     meta_iteration r <= meta_iteration r' /\ data_iteration r <= data_iteration r').
Proof.
  unfold handle_incoming_record.
  destruct (open_tree db (ev_tree_name ev)) as [db0 tr0] eqn:Ho.
  pose proof (proj1 (open_tree_spec db (ev_tree_name ev))) as Hin.
  pose proof (open_tree_default db (ev_tree_name ev)) as Hdef.
  rewrite Ho in Hin, Hdef. cbn [fst snd] in Hin, Hdef.
  assert (Htr0 : default ∅ (db !! ev_tree_name ev) = tr0).
  { by rewrite <- Hdef, Hin. }
  set (n := ev_tree_name ev) in *. set (kb := to_bytes (ev_key ev)) in *.
  intros H.
  assert (Hput : forall tr, (forall kb', kb' <> kb -> tr !! kb' = tr0 !! kb') ->
     forall n' kb', (n', kb') <> (n, kb) ->
     default ∅ (<[n := tr]> db0 !! n') !! kb' = default ∅ (db !! n') !! kb').
  { intros tr Htr n' kb' Hne. rewrite <- Hdef.
    destruct (decide (n' = n)) as [->|Hn].
    - rewrite lookup_insert_eq, Hin. cbn [default]. apply Htr. congruence.
    - by rewrite lookup_insert_ne. }
  rewrite Htr0.
  destruct (kind ev) as [m bytes mi di evo|m mi|m mi bytes di evo|];
    destruct (tr0 !! kb) as [[r|p]|] eqn:Hl; cbn [archived_record] in H;
    repeat match type of H with context [if ?b then _ else _] => destruct b eqn:? end;
    injection H as <- <- <-.
  all: try (split; [intros n' kb' _; by rewrite Hdef|];
            intros ? ? H1 H2; rewrite Hdef, Htr0, Hl in H2; simplify_eq; lia).
  - split; [apply Hput; intros kb' Hne; by rewrite lookup_insert_ne|].
    done.
  - split; [apply Hput; intros kb' Hne; by rewrite lookup_insert_ne|].
    intros r0 r1 H1 H2. rewrite lookup_insert_eq in H2. cbn [from_option Datatypes.id] in H2.
    rewrite lookup_insert_eq in H2. injection H1 as <-. injection H2 as <-. cbn.
    match goal with E : (_ <=? _) = false |- _ => apply N.leb_gt in E end. lia.
  - split; [apply Hput; intros kb' Hne; by rewrite lookup_insert_ne|].
    intros r0 r1 H1 H2. rewrite lookup_insert_eq in H2. cbn [from_option Datatypes.id] in H2.
    rewrite lookup_insert_eq in H2. injection H1 as <-. injection H2 as <-. cbn.
    match goal with E : (_ || _) = false |- _ => apply orb_false_iff in E as [E1 E2] end.
    apply N.leb_gt in E1, E2. lia.
  - split; [apply Hput; intros kb' Hne; by rewrite lookup_delete_ne|].
    intros r0 r1 H1 H2. rewrite lookup_insert_eq in H2. cbn [from_option Datatypes.id] in H2.
    by rewrite lookup_delete_eq in H2.
Qed.

End HandleMore.

Section RelayMore.
Context {IxState : Type}.
Context (ix_update : IxState -> SledTree -> SimpleVersion -> GenericKey ->
                     list Z -> Action -> IxState * result unit).
Local Abbreviation process := (Relay.process_hot_sync ix_update).

Lemma apply_and_broadcast_fields (st st1 : Relay.RelayState) (cs : Relay.ConnState)
    (ev : Relay.WireEvent) r :
  Relay.apply_and_broadcast ix_update st cs ev = (st1, r) ->
  Relay.removed st1 = Relay.removed st /\ Relay.rborrows st1 = Relay.rborrows st /\
  (Relay.broadcast st1 = Relay.broadcast st \/
   Relay.broadcast st1 = Relay.broadcast st ++
     [Relay.mkWireEvent (Relay.w_tree_name ev) (Relay.w_key ev) (Some (Relay.remote_addr cs))
        (Relay.w_kind ev)]).
Proof.
  unfold Relay.apply_and_broadcast.
  destruct (Relay.apply_wire_event ix_update (Relay.rdb st) ev) as [db' [[]|e]].
  - destruct (Relay.bcast_closed st); intros [= <- _]; cbn; [by split; [|split; [|left]]|].
    split; [done|split; [done|by right]].
  - intros [= <- _]. cbn. by split; [|split; [|left]].
Qed.

(** X14: On the relay, a [Removed] event from a registered client records the tombstone [tree_name || key] and drops the key's check-out queue, leaving the other trees' queues as they were. *)
Theorem relay_removed_effects (st st1 : Relay.RelayState) (cs : Relay.ConnState)
    (ev : Relay.WireEvent) (ci : Relay.ClientInfo) r :
  Relay.info cs = Some ci -> Relay.w_kind ev = Relay.WRemoved ->
  process st cs ev = (st1, r) ->
  Relay.string_bytes (Relay.w_tree_name ev) ++ to_bytes (Relay.w_key ev) ∈ Relay.removed st1 /\
  (forall bk, Relay.rborrows st1 !! Relay.w_tree_name ev = Some bk -> bk !! Relay.w_key ev = None) /\
  (forall tn, tn <> Relay.w_tree_name ev -> Relay.rborrows st1 !! tn = Relay.rborrows st !! tn).
Proof.
  intros Hi Hk. unfold Relay.process_hot_sync. rewrite Hi, Hk. cbn [Relay.wire_meta_iteration].
  intros H. apply apply_and_broadcast_fields in H as (Hr & Hb & _).
  rewrite Hr, Hb. cbn [Relay.removed Relay.rborrows]. split; [set_solver|].
  destruct (Relay.rborrows st !! Relay.w_tree_name ev) as [bk0|] eqn:Hbk; split.
  - intros bk. rewrite lookup_insert_eq. intros [= <-]. apply lookup_delete_eq.
  - intros tn Hne. by rewrite lookup_insert_ne.
  - intros bk. by rewrite Hbk.
  - done.
Qed.

(** X15: The relay never deletes a tombstone, and once the tombstone of a key is recorded, every later change or meta change of that key is dropped with the relay state unchanged. *)
Theorem relay_tombstone_permanent (st st1 : Relay.RelayState) (cs : Relay.ConnState)
    (ev : Relay.WireEvent) r :
  process st cs ev = (st1, r) ->
  Relay.removed st ⊆ Relay.removed st1 /\
  (Relay.string_bytes (Relay.w_tree_name ev) ++ to_bytes (Relay.w_key ev) ∈ Relay.removed st ->
   Relay.w_kind ev <> Relay.WRemoved -> st1 = st /\ r = Ok tt).
Proof.
  unfold Relay.process_hot_sync.
  destruct (Relay.info cs) as [ci|]; [|intros [= <- <-]; done].
  destruct (Relay.wire_meta_iteration (Relay.w_kind ev)) as [mi|] eqn:Hmi.
  - destruct ((mi =? 0) && negb (Relay.owns_key ci (Relay.w_tree_name ev) (Relay.w_key ev)));
      [intros [= <- <-]; done|].
    case_bool_decide as Hin; [intros [= <- <-]; done|].
    intros H. apply apply_and_broadcast_fields in H as (-> & _ & _). done.
  - intros H. apply apply_and_broadcast_fields in H as (-> & _ & _). cbn [Relay.removed].
    split; [set_solver|]. intros _ Hk. destruct (Relay.w_kind ev); done.
Qed.

(** X16: Processing an event only appends to the relay's broadcast log, and every appended event carries the sender's address, so it is never sent back to the sender's connection. *)
Theorem relay_never_echoes (st st1 : Relay.RelayState) (cs : Relay.ConnState)
    (ev : Relay.WireEvent) r :
  process st cs ev = (st1, r) ->
  exists added, Relay.broadcast st1 = Relay.broadcast st ++ added /\
                Forall (fun e => relays_to cs e = false) added.
Proof.
  assert (Hself : relays_to cs (Relay.mkWireEvent (Relay.w_tree_name ev) (Relay.w_key ev)
                     (Some (Relay.remote_addr cs)) (Relay.w_kind ev)) = false).
  { unfold relays_to. cbn. by rewrite bool_decide_eq_true_2. }
  assert (Hab : forall st0 st2 r0, Relay.apply_and_broadcast ix_update st0 cs ev = (st2, r0) ->
            Relay.broadcast st0 = Relay.broadcast st ->
            exists added, Relay.broadcast st2 = Relay.broadcast st ++ added /\
                          Forall (fun e => relays_to cs e = false) added).
  { intros st0 st2 r0 H E. apply apply_and_broadcast_fields in H as (_ & _ & [Hb|Hb]);
      rewrite Hb, E; [exists []; by rewrite app_nil_r|]. eexists; split; [done|].
    by constructor. }
  unfold Relay.process_hot_sync.
  destruct (Relay.info cs) as [ci|]; [|intros [= <- <-]; exists []; by rewrite app_nil_r].
  destruct (Relay.wire_meta_iteration (Relay.w_kind ev)) as [mi|].
  - destruct ((mi =? 0) && negb (Relay.owns_key ci (Relay.w_tree_name ev) (Relay.w_key ev)));
      [intros [= <- <-]; exists []; by rewrite app_nil_r|].
    case_bool_decide as Hin; [intros [= <- <-]; exists []; by rewrite app_nil_r|].
    intros H. by eapply Hab.
  - intros H. by eapply Hab.
Qed.

End RelayMore.

Section Borrow.

Lemma borrow_keys_ind_gen (P : gmap GenericKey (list N) -> Prop)
    (co : bool) (u : N) (keys : list GenericKey) bk ch bk' ch' :
  (forall bk0 key q', P bk0 ->
     (if co then ((u ∈ (default [] (bk0 !! key)) /\ q' = (default [] (bk0 !! key))) \/ (~ u ∈ (default [] (bk0 !! key)) /\ q' = (default [] (bk0 !! key)) ++ [u]))
      else ((head ((default [] (bk0 !! key))) = Some u /\ q' = tail ((default [] (bk0 !! key)))) \/
           (head ((default [] (bk0 !! key))) <> Some u /\ q' = (default [] (bk0 !! key))))) ->
     P (<[key := q']> bk0)) ->
  P bk -> borrow_keys co u keys bk ch = (bk', ch') -> P bk'.
Proof.
  intros Hstep. revert bk ch. induction keys as [|key rest IH]; intros bk ch HP; cbn.
  - by intros [= <- _].
  - destruct co; [case_bool_decide as Hc|case_bool_decide as Hc]; intros H;
      (eapply IH; [|exact H]); apply Hstep; auto.
Qed.

Lemma borrow_keys_others_unmoved (co : bool) (u : N) keys bk ch bk' ch' :
  borrow_keys co u keys bk ch = (bk', ch') ->
  forall k, filter (fun x => x <> u) (default [] (bk' !! k)) =
            filter (fun x => x <> u) (default [] (bk !! k)).
Proof.
  intros H. pattern bk'. eapply borrow_keys_ind_gen; [|done|exact H].
  intros bk0 key q' IH Hs k. destruct (decide (k = key)) as [->|Hne].
  - rewrite lookup_insert_eq. cbn [from_option Datatypes.id]. rewrite <- IH.
    revert Hs; destruct co; intros [[Hh ->]|[Hh ->]]; try done.
    + rewrite filter_app, filter_cons_False, filter_nil, app_nil_r; [done|]. by intros ?.
    + destruct (default [] (bk0 !! key)) as [|h t]; [done|]. injection Hh as ->.
      rewrite filter_cons_False; [done|]. by intros ?.
  - by rewrite lookup_insert_ne.
Qed.

Lemma borrow_keys_nodup (co : bool) (u : N) keys bk ch bk' ch' :
  borrow_keys co u keys bk ch = (bk', ch') ->
  (forall k, NoDup (default [] (bk !! k))) -> forall k, NoDup (default [] (bk' !! k)).
Proof.
  intros H HN. pattern bk'. eapply borrow_keys_ind_gen; [|done|exact H].
  intros bk0 key q' IH Hs k. destruct (decide (k = key)) as [->|Hne].
  - rewrite lookup_insert_eq. cbn [from_option Datatypes.id]. specialize (IH key).
    revert Hs; destruct co; intros [[Hh ->]|[Hh ->]]; try done.
    + apply NoDup_app; split; [done|split; [|apply NoDup_singleton]].
      intros x Hx Hy. apply list_elem_of_singleton in Hy as ->. done.
    + destruct (default [] (bk0 !! key)); [done|]. cbn. by apply NoDup_cons in IH as [_ ?].
  - by rewrite lookup_insert_ne.
Qed.

Lemma borrow_keys_checkout_member (u : N) keys bk ch bk' ch' :
  borrow_keys true u keys bk ch = (bk', ch') ->
  forall k, k ∈ keys \/ u ∈ default [] (bk !! k) -> u ∈ default [] (bk' !! k).
Proof.
  revert bk ch. induction keys as [|key rest IH]; intros bk ch; cbn.
  - intros [= <- _] k [Hk|Hk]; [by apply elem_of_nil in Hk|done].
  - intros H k Hk. case_bool_decide as Hc; (eapply IH; [exact H|]);
      (destruct (decide (k = key)) as [->|Hne];
       [right; rewrite lookup_insert_eq; cbn [from_option Datatypes.id]; set_solver|]);
      (rewrite lookup_insert_ne; [|done]); destruct Hk as [Hk|Hk]; try (by right);
      apply elem_of_cons in Hk as [?|?]; by auto.
Qed.

Lemma borrow_keys_return_released (u : N) keys bk ch bk' ch' :
  borrow_keys false u keys bk ch = (bk', ch') ->
  (forall k, NoDup (default [] (bk !! k))) ->
  forall k, k ∈ keys \/ head (default [] (bk !! k)) <> Some u ->
  head (default [] (bk' !! k)) <> Some u.
Proof.
  revert bk ch. induction keys as [|key rest IH]; intros bk ch; cbn.
  - intros [= <- _] _ k [Hk|Hk]; [by apply elem_of_nil in Hk|done].
  - intros H HN k Hk.
    assert (HN' : forall k, NoDup (default [] (<[key := if bool_decide (head (default [] (bk !! key)) = Some u) then tail (default [] (bk !! key)) else default [] (bk !! key)]> bk !! k))).
    { intros k'. destruct (decide (k' = key)) as [->|Hne].
      - rewrite lookup_insert_eq. cbn [from_option Datatypes.id]. specialize (HN key).
        case_bool_decide; [|done]. destruct (default [] (bk !! key)); [done|].
        cbn. by apply NoDup_cons in HN as [_ ?].
      - rewrite lookup_insert_ne; [apply HN|done]. }
    case_bool_decide as Hc; (eapply IH; [exact H|exact HN'|]);
      (destruct (decide (k = key)) as [->|Hne];
       [right; rewrite lookup_insert_eq; cbn [from_option Datatypes.id]|]).
    + specialize (HN key). destruct (default [] (bk !! key)) as [|h t]; [done|].
      injection Hc as ->. apply NoDup_cons in HN as [Hu _]. cbn.
      destruct t as [|h' t]; [done|]. cbn. intros [= ->]. apply Hu. left.
    + rewrite lookup_insert_ne; [|done]. destruct Hk as [Hk|Hk]; [|by right].
      apply elem_of_cons in Hk as [?|?]; [done|by left].
    + done.
    + rewrite lookup_insert_ne; [|done]. destruct Hk as [Hk|Hk]; [|by right].
      apply elem_of_cons in Hk as [?|?]; [done|by left].
Qed.

(** X17: A [CheckOut] or [Return] by a client touches only the named tree, leaves the relative order of the other clients in every queue unchanged, and keeps queues free of duplicates. *)
Theorem checkout_or_return_frame (b b1 : Borrows) closed (cs : Relay.ConnState)
    (co : bool) tree keys bc r (ci : Relay.ClientInfo) :
  Relay.info cs = Some ci ->
  checkout_or_return b closed cs co tree keys = (b1, bc, r) ->
  (forall tn, tn <> tree -> b1 !! tn = b !! tn) /\
  (forall k, filter (fun x => x <> Relay.ci_uuid ci) (default [] (default ∅ (b1 !! tree) !! k)) =
             filter (fun x => x <> Relay.ci_uuid ci) (default [] (default ∅ (b !! tree) !! k))) /\
  ((forall k, NoDup (default [] (default ∅ (b !! tree) !! k))) ->
   forall k, NoDup (default [] (default ∅ (b1 !! tree) !! k))).
Proof.
  intros Hi. unfold checkout_or_return. rewrite Hi.
  destruct (borrow_keys co (Relay.ci_uuid ci) keys (default ∅ (b !! tree)) false)
    as [bk' ch'] eqn:Hb.
  assert (Hfin : forall b2, b2 = <[tree := bk']> b ->
    (forall tn, tn <> tree -> b2 !! tn = b !! tn) /\
    (forall k, filter (fun x => x <> Relay.ci_uuid ci) (default [] (default ∅ (b2 !! tree) !! k)) =
               filter (fun x => x <> Relay.ci_uuid ci) (default [] (default ∅ (b !! tree) !! k))) /\
    ((forall k, NoDup (default [] (default ∅ (b !! tree) !! k))) ->
     forall k, NoDup (default [] (default ∅ (b2 !! tree) !! k)))).
  { intros b2 ->. split; [intros tn Hne; by rewrite lookup_insert_ne|].
    rewrite lookup_insert_eq. cbn [from_option Datatypes.id]. split.
    - by eapply borrow_keys_others_unmoved.
    - by eapply borrow_keys_nodup. }
  destruct ch'; [destruct closed|]; intros [= <- _ _]; by apply Hfin.
Qed.

(** X18: After a [CheckOut] the client is queued for every requested key; after a [Return] on duplicate-free queues it heads none of the returned keys' queues. *)
Theorem checkout_or_return_effect (b b1 : Borrows) closed (cs : Relay.ConnState)
    (co : bool) tree keys bc r (ci : Relay.ClientInfo) :
  Relay.info cs = Some ci ->
  checkout_or_return b closed cs co tree keys = (b1, bc, r) ->
  (co = true -> forall k, k ∈ keys -> Relay.ci_uuid ci ∈ default [] (default ∅ (b1 !! tree) !! k)) /\
  (co = false -> (forall k, NoDup (default [] (default ∅ (b !! tree) !! k))) ->
   forall k, k ∈ keys -> head (default [] (default ∅ (b1 !! tree) !! k)) <> Some (Relay.ci_uuid ci)).
Proof.
  intros Hi. unfold checkout_or_return. rewrite Hi.
  destruct (borrow_keys co (Relay.ci_uuid ci) keys (default ∅ (b !! tree)) false)
    as [bk' ch'] eqn:Hb.
  assert (Hfin : forall b2, b2 = <[tree := bk']> b ->
    (co = true -> forall k, k ∈ keys -> Relay.ci_uuid ci ∈ default [] (default ∅ (b2 !! tree) !! k)) /\
    (co = false -> (forall k, NoDup (default [] (default ∅ (b !! tree) !! k))) ->
     forall k, k ∈ keys -> head (default [] (default ∅ (b2 !! tree) !! k)) <> Some (Relay.ci_uuid ci))).
  { intros b2 ->. rewrite lookup_insert_eq. cbn [from_option Datatypes.id]. split.
    - intros ->. intros k Hk. eapply borrow_keys_checkout_member; [exact Hb|by left].
    - intros -> HN k Hk. eapply borrow_keys_return_released; [exact Hb|exact HN|by left]. }
  destruct ch'; [destruct closed|]; intros [= <- _ _]; by apply Hfin.
Qed.

End Borrow.

(** X19: When [next_key + KEYS_PER_REQUEST] fits in [u32], [GetKeySet] hands out the next [KEYS_PER_REQUEST] ids of the tree, advances the tree's [next_key] past them, and the client then owns them while keeping every key it owned. *)
Theorem get_key_set_grants (infos : gmap string N) (clients : gmap N Relay.ClientInfo)
    (cs : Relay.ConnState) tree ci nk infos' clients' cs' rng :
  Relay.info cs = Some ci -> infos !! tree = Some nk -> nk + KEYS_PER_REQUEST < 2 ^ 32 ->
  get_key_set infos clients cs tree = (infos', clients', cs', rng) ->
  rng = Some (nk, nk + KEYS_PER_REQUEST) /\
  infos' !! tree = Some (nk + KEYS_PER_REQUEST) /\
  (forall tn, tn <> tree -> infos' !! tn = infos !! tn) /\
  exists ci', Relay.info cs' = Some ci' /\ clients' !! Relay.ci_uuid ci = Some ci' /\
    Relay.ci_uuid ci' = Relay.ci_uuid ci /\
    (forall k, nk <= id k < nk + KEYS_PER_REQUEST -> Relay.owns_key ci' tree k = true) /\
    (forall tn k, Relay.owns_key ci tn k = true -> Relay.owns_key ci' tn k = true).
Proof.
  intros Hi Hn Hb. unfold get_key_set. rewrite Hi, Hn.
  assert (Hadd : u32_add nk KEYS_PER_REQUEST = nk + KEYS_PER_REQUEST).
  { unfold u32_add. apply N.mod_small. done. }
  rewrite Hadd. intros [= <- <- <- <-].
  split; [done|]. split; [by rewrite lookup_insert_eq|].
  split; [intros tn Hne; by rewrite lookup_insert_ne|].
  eexists; split; [done|]. split; [by rewrite lookup_insert_eq|]. split; [done|].
  assert (Hnew : forall rs k, nk <= id k < nk + KEYS_PER_REQUEST ->
            existsb (fun r => (r.1 <=? id k) && (id k <? r.2)) (rs ++ [(nk, nk + KEYS_PER_REQUEST)]) = true).
  { intros rs k [H1 H2]. rewrite existsb_app. apply orb_true_iff. right. cbn.
    rewrite orb_false_r. apply andb_true_iff. split; [by apply N.leb_le|by apply N.ltb_lt]. }
  unfold Relay.owns_key. cbn [Relay.key_ranges].
  destruct (Relay.key_ranges ci !! tree) as [rs|] eqn:Hr; split.
  - intros k Hk. rewrite lookup_insert_eq. by apply Hnew.
  - intros tn k. destruct (decide (tn = tree)) as [->|Hne].
    + rewrite Hr, lookup_insert_eq. rewrite existsb_app. intros ->. done.
    + by rewrite lookup_insert_ne.
  - intros k Hk. rewrite lookup_insert_eq. by apply (Hnew []).
  - intros tn k. destruct (decide (tn = tree)) as [->|Hne].
    + by rewrite Hr.
    + by rewrite lookup_insert_ne.
Qed.

(** X28: When [next_key + KEYS_PER_REQUEST] overflows [u32], [GetKeySet] (with the wrap-around of a release build) sends the empty range from [next_key] to the wrapped sum, stores the wrapped sum, which is below [next_key], as the tree's next [next_key], and the client owns no new id. *)
Theorem get_key_set_wraps (infos : gmap string N) (clients : gmap N Relay.ClientInfo)
    (cs : Relay.ConnState) tree ci nk infos' clients' cs' rng :
  Relay.info cs = Some ci -> infos !! tree = Some nk -> nk < 2 ^ 32 ->
  2 ^ 32 <= nk + KEYS_PER_REQUEST ->
  get_key_set infos clients cs tree = (infos', clients', cs', rng) ->
  rng = Some (nk, nk + KEYS_PER_REQUEST - 2 ^ 32) /\
  nk + KEYS_PER_REQUEST - 2 ^ 32 < nk /\
  infos' !! tree = Some (nk + KEYS_PER_REQUEST - 2 ^ 32) /\
  exists ci', Relay.info cs' = Some ci' /\ clients' !! Relay.ci_uuid ci = Some ci' /\
    forall tn k, Relay.owns_key ci' tn k = Relay.owns_key ci tn k.
Proof.
  intros Hi Hn Hlt Hge. unfold get_key_set. rewrite Hi, Hn.
  assert (Hadd : u32_add nk KEYS_PER_REQUEST = nk + KEYS_PER_REQUEST - 2 ^ 32).
  { unfold u32_add. symmetry. apply (N.mod_unique _ _ 1); unfold KEYS_PER_REQUEST in *; lia. }
  rewrite Hadd. intros [= <- <- <- <-].
  assert (Hw : nk + KEYS_PER_REQUEST - 2 ^ 32 < nk) by (unfold KEYS_PER_REQUEST in *; lia).
  split; [done|]. split; [done|]. split; [by rewrite lookup_insert_eq|].
  eexists; split; [done|]. split; [by rewrite lookup_insert_eq|].
  assert (Hnew : forall k, (nk <=? id k) && (id k <? nk + KEYS_PER_REQUEST - 2 ^ 32) = false).
  { intros k. apply andb_false_iff. destruct (N.le_gt_cases nk (id k)).
    - right. apply N.ltb_ge. lia.
    - left. apply N.leb_gt. lia. }
  intros tn k. unfold Relay.owns_key. cbn [Relay.key_ranges].
  destruct (decide (tn = tree)) as [->|Hne].
  - destruct (Relay.key_ranges ci !! tree) as [rs|]; rewrite lookup_insert_eq.
    + rewrite existsb_app. cbn [existsb fst snd]. by rewrite Hnew, !orb_false_r.
    + cbn [existsb fst snd]. by rewrite Hnew.
  - destruct (Relay.key_ranges ci !! tree); by rewrite lookup_insert_ne.
Qed.

Lemma sv_cmp_lt_iff (a b : SimpleVersion) :
  sv_cmp a b = Lt <-> major a < major b \/ (major a = major b /\ minor a < minor b).
Proof.
  destruct a as [a1 a2], b as [b1 b2]. unfold sv_cmp. cbn [major minor].
  destruct (b1 <? a1) eqn:H1; [apply N.ltb_lt in H1; split; [done|lia]|apply N.ltb_ge in H1].
  destruct (a1 <? b1) eqn:H2; [apply N.ltb_lt in H2; split; [lia|done]|apply N.ltb_ge in H2].
  rewrite N.compare_lt_iff. lia.
Qed.

Lemma sv_cmp_eq_iff (a b : SimpleVersion) : sv_cmp a b = Eq <-> a = b.
Proof.
  destruct a as [a1 a2], b as [b1 b2]. unfold sv_cmp. cbn [major minor].
  destruct (b1 <? a1) eqn:H1; [apply N.ltb_lt in H1; split; [done|intros [= -> ->]; lia]|apply N.ltb_ge in H1].
  destruct (a1 <? b1) eqn:H2; [apply N.ltb_lt in H2; split; [done|intros [= -> ->]; lia]|apply N.ltb_ge in H2].
  rewrite N.compare_eq_iff. split; [intros ->; f_equal; lia|by intros [= -> ->]].
Qed.

Lemma sv_cmp_opp (a b : SimpleVersion) : sv_cmp b a = CompOpp (sv_cmp a b).
Proof.
  destruct a as [a1 a2], b as [b1 b2]. unfold sv_cmp. cbn [major minor].
  destruct (a1 <? b1) eqn:H1, (b1 <? a1) eqn:H2;
    rewrite ?N.ltb_lt, ?N.ltb_ge in H1; rewrite ?N.ltb_lt, ?N.ltb_ge in H2; try lia; try done.
  apply N.compare_antisym.
Qed.

Lemma sv_cmp_gt_iff (a b : SimpleVersion) :
  sv_cmp a b = Gt <-> major b < major a \/ (major b = major a /\ minor b < minor a).
Proof. rewrite <- sv_cmp_lt_iff, (sv_cmp_opp a b). by destruct (sv_cmp a b). Qed.

(** X20: [SimpleVersion]'s [Ord] is the lexicographic order on [(major, minor)]: it is [Equal] exactly on equal versions, antisymmetric and transitive. *)
Theorem sv_cmp_lexicographic (a b c : SimpleVersion) :
  (sv_cmp a b = Lt <-> major a < major b \/ (major a = major b /\ minor a < minor b)) /\
  (sv_cmp a b = Eq <-> a = b) /\
  sv_cmp b a = CompOpp (sv_cmp a b) /\
  (sv_cmp a b = Lt -> sv_cmp b c = Lt -> sv_cmp a c = Lt).
Proof.
  split; [apply sv_cmp_lt_iff|]. split; [apply sv_cmp_eq_iff|]. split; [apply sv_cmp_opp|].
  rewrite !sv_cmp_lt_iff. lia.
Qed.

Lemma max_evolution_spec (d : TreeDescriptor) :
  (forall k tc, evolutions d !! k = Some tc ->
     sv_cmp (mkSimpleVersion k.1 k.2) (max_evolution d) <> Gt) /\
  (max_evolution d = mkSimpleVersion 0 0 \/
   is_Some (evolutions d !! (major (max_evolution d), minor (max_evolution d)))).
Proof.
  unfold max_evolution.
  refine (map_fold_weak_ind (fun r m =>
    (forall k tc, m !! k = Some tc -> sv_cmp (mkSimpleVersion k.1 k.2) r <> Gt) /\
    (r = mkSimpleVersion 0 0 \/ is_Some (m !! (major r, minor r)))) _ _ _ _ (evolutions d));
    [|intros i x m r Hi [IH1 IH2]].
  - split; [intros k tc; by rewrite lookup_empty|by left].
  - unfold sv_max. destruct (sv_cmp (mkSimpleVersion i.1 i.2) r) eqn:Hc; split.
    + intros k tc. destruct (decide (k = i)) as [->|Hne].
      * intros _. by rewrite (proj2 (sv_cmp_eq_iff _ _) eq_refl).
      * rewrite lookup_insert_ne; [|done]. intros Hk Hg. apply (IH1 k tc Hk).
        apply sv_cmp_eq_iff in Hc. by rewrite <- Hc.
    + right. cbn [major minor]. rewrite <- surjective_pairing, lookup_insert_eq. by eexists.
    + intros k tc. destruct (decide (k = i)) as [->|Hne].
      * intros _. by rewrite Hc.
      * rewrite lookup_insert_ne; [|done]. by apply IH1.
    + destruct IH2 as [->|IH2]; [by left|right].
      assert (Hne : (major r, minor r) <> i).
      { intros <-. rewrite (proj2 (sv_cmp_eq_iff _ _)) in Hc; [done|by destruct r]. }
      by rewrite lookup_insert_ne.
    + intros k tc. destruct (decide (k = i)) as [->|Hne].
      * intros _. by rewrite (proj2 (sv_cmp_eq_iff _ _) eq_refl).
      * rewrite lookup_insert_ne; [|done]. intros Hk.
        specialize (IH1 k tc Hk). rewrite sv_cmp_gt_iff in IH1, Hc |- *. cbn [major minor] in *. lia.
    + right. cbn [major minor]. rewrite <- surjective_pairing, lookup_insert_eq. by eexists.
Qed.

(** X21: With valid names and matching versioning, [open_cold_tree] fails with [EvolutionMismatch] exactly when the requested evolution is stored, no stored evolution is newer, and its stored collection differs from the current one; otherwise the checks pass. *)
Theorem open_cold_tree_evolution_mismatch (key_tree_name tree_name : string) (versioning : bool)
    (evolution : SimpleVersion) (current_tc : SimpleAst.TypeCollection) (d : TreeDescriptor) :
  String.eqb key_tree_name tree_name = true -> String.prefix "_" tree_name = false ->
  d_versioning d = versioning ->
  let newest_differs :=
    exists known_tc, evolutions d !! (major evolution, minor evolution) = Some known_tc /\
      known_tc <> current_tc /\
      forall k tc, evolutions d !! k = Some tc -> sv_cmp (mkSimpleVersion k.1 k.2) evolution <> Gt in
  (open_cold_tree_check key_tree_name tree_name versioning evolution current_tc (Some d) =
     Err EvolutionMismatch <-> newest_differs) /\
  (~ newest_differs ->
   open_cold_tree_check key_tree_name tree_name versioning evolution current_tc (Some d) = Ok tt).
Proof.
  intros Hk Hp Hv newest_differs. unfold open_cold_tree_check. rewrite Hk, Hp, Hv.
  cbn [negb]. rewrite eqb_reflx. cbn [negb].
  destruct (max_evolution_spec d) as [Hub Hmax].
  assert (Hst : forall tc, evolutions d !! (major evolution, minor evolution) = Some tc ->
            sv_cmp evolution (max_evolution d) <> Gt).
  { intros tc H. destruct evolution as [a b]. by apply (Hub (a, b) tc). }
  destruct (sv_cmp evolution (max_evolution d)) eqn:Hc.
  - apply sv_cmp_eq_iff in Hc. subst newest_differs.
    destruct (evolutions d !! (major evolution, minor evolution)) as [known|] eqn:Hl.
    + unfold SimpleAst.tc_eq. case_bool_decide as He; cbn [negb].
      * split; [split; [done|intros (kt & [= <-] & Hne & _); by subst]|done].
      * assert (HP : exists known_tc, Some known = Some known_tc /\ known_tc <> current_tc /\
          forall k tc, evolutions d !! k = Some tc -> sv_cmp (mkSimpleVersion k.1 k.2) evolution <> Gt).
        { exists known. split; [done|]. split; [by intros ->|]. rewrite Hc. apply Hub. }
        split; [done|]. intros Hn. by destruct Hn.
    + split; [split; [done|by intros (kt & ? & _)]|done].
  - subst newest_differs. split; [split; [done|]|done]. intros (kt & Hl & _ & Hall).
    destruct Hmax as [Hz|[tc Hm]].
    + rewrite Hz in Hc. apply sv_cmp_lt_iff in Hc. cbn [major minor] in Hc. lia.
    + specialize (Hall _ _ Hm). cbn [fst snd] in Hall. exfalso. apply Hall.
      rewrite sv_cmp_gt_iff. rewrite sv_cmp_lt_iff in Hc. cbn [major minor]. lia.
  - subst newest_differs. split; [split; [done|]|done]. intros (kt & Hl & _). by destruct (Hst kt Hl).
Qed.

Section Evo.
Import SimpleAst EvolutionCheck.

Lemma field_types_match_prefix (pf nf : list StructField) :
  (length pf <= length nf)%nat ->
  field_types_match pf nf = true <-> map ty pf = map ty (take (length pf) nf).
Proof.
  revert nf. induction pf as [|f pf IH]; intros nf Hl; [done|].
  destruct nf as [|g nf]; [cbn in Hl; lia|]. cbn in Hl.
  unfold field_types_match. cbn [combine forallb length take map].
  fold (field_types_match pf nf). rewrite andb_true_iff, String.eqb_eq, IH by lia.
  split; [intros [-> ->]; done|intros [= -> ->]; done].
Qed.

Lemma field_types_match_refl (l : list StructField) : field_types_match l l = true.
Proof. apply field_types_match_prefix; [done|]. by rewrite firstn_all. Qed.

Lemma forallb_combine_Forall2 {A B} (f : A -> B -> bool) (l1 : list A) (l2 : list B) :
  length l1 = length l2 ->
  forallb (fun '(a, b) => f a b) (combine l1 l2) = true <-> Forall2 (fun a b => f a b = true) l1 l2.
Proof.
  revert l2. induction l1 as [|a l1 IH]; intros [|b l2] Hl; cbn in Hl; try lia.
  - split; [constructor|done].
  - cbn. rewrite andb_true_iff, IH by lia. split; [intros [? ?]; by constructor|].
    intros Hf. by inversion Hf.
Qed.

Lemma is_enum_fields_compatible_iff (a b : EnumFields) :
  is_enum_fields_compatible a b = true <->
  match a, b with
  | Named x, Named y => map ty x = map ty y
  | Unnamed x, Unnamed y => x = y
  | Unit, Unit => True
  | _, _ => False
  end.
Proof.
  destruct a as [x|x|], b as [y|y|]; cbn; try done.
  - destruct (Nat.eqb (length x) (length y)) eqn:E; cbn [negb].
    + apply Nat.eqb_eq in E. rewrite field_types_match_prefix by lia. rewrite E, firstn_all. done.
    + split; [done|]. intros Hm. apply (f_equal length) in Hm. rewrite !length_map in Hm.
      apply Nat.eqb_neq in E. done.
  - split; [apply bool_decide_eq_true_1|apply bool_decide_eq_true_2].
Qed.

(** X22: For a struct root, [is_backwards_compatible] holds exactly when the new root is a struct that keeps the old field types, in order, as a prefix; field names are ignored and fields may be appended. *)
Theorem is_backwards_compatible_struct (previous next : TypeCollection) (prev_fields : list StructField) :
  refs previous !! root previous = Some (Struct prev_fields) ->
  is_backwards_compatible previous next = true <->
  exists kept added, refs next !! root previous = Some (Struct (kept ++ added)) /\
                     map ty kept = map ty prev_fields.
Proof.
  intros Hp. unfold is_backwards_compatible. rewrite Hp.
  destruct (refs next !! root previous) as [[nf|nv]|]; cycle 1.
  - split; [done|]. by intros (kept & added & ? & _).
  - split; [done|]. by intros (kept & added & ? & _).
  - destruct (Nat.ltb (length nf) (length prev_fields)) eqn:E.
    + apply Nat.ltb_lt in E. split; [done|]. intros (kept & added & [= ->] & Hm).
      apply (f_equal length) in Hm. rewrite !length_map in Hm. rewrite length_app in E. lia.
    + apply Nat.ltb_ge in E. rewrite field_types_match_prefix by done. split.
      * intros Hm. exists (take (length prev_fields) nf), (drop (length prev_fields) nf).
        by rewrite take_drop.
      * intros (kept & added & [= ->] & Hm). rewrite <- Hm.
        assert (length kept = length prev_fields) as <-.
        { apply (f_equal length) in Hm. by rewrite !length_map in Hm. }
        by rewrite take_app_length.
Qed.

(** X23: For an enum root, [is_backwards_compatible] holds exactly when the new root is an enum with as many variants, each of the same shape and field types as the old one at its position; variant and field names are ignored. *)
Theorem is_backwards_compatible_enum (previous next : TypeCollection) (prev_variants : list EnumVariant) :
  refs previous !! root previous = Some (Enum prev_variants) ->
  is_backwards_compatible previous next = true <->
  exists next_variants, refs next !! root previous = Some (Enum next_variants) /\
    Forall2 (fun a b =>
      match v_fields a, v_fields b with
      | Named x, Named y => map ty x = map ty y
      | Unnamed x, Unnamed y => x = y
      | Unit, Unit => True
      | _, _ => False
      end) prev_variants next_variants.
Proof.
  intros Hp. unfold is_backwards_compatible. rewrite Hp.
  destruct (refs next !! root previous) as [[nf|nv]|].
  - split; [done|]. by intros (nv & ? & _).
  - destruct (Nat.eqb (length prev_variants) (length nv)) eqn:E; cbn [negb].
    + apply Nat.eqb_eq in E.
      rewrite (forallb_combine_Forall2 (fun f f_new => is_enum_fields_compatible (v_fields f) (v_fields f_new)))
        by done.
      split.
      * intros Hf. exists nv. split; [done|]. eapply Forall2_impl; [exact Hf|].
        intros a b. by rewrite is_enum_fields_compatible_iff.
      * intros (nv' & [= <-] & Hf). eapply Forall2_impl; [exact Hf|].
        intros a b. by rewrite is_enum_fields_compatible_iff.
    + split; [done|]. intros (nv' & [= <-] & Hf). apply Forall2_length in Hf.
      apply Nat.eqb_neq in E. done.
  - split; [done|]. by intros (nv & ? & _).
Qed.

(** X24: A type collection is backwards compatible with itself exactly when it describes its root type. *)
Theorem is_backwards_compatible_refl (tc : TypeCollection) :
  is_backwards_compatible tc tc = true <-> is_Some (refs tc !! root tc).
Proof.
  unfold is_backwards_compatible. destruct (refs tc !! root tc) as [[fs|vs]|]; cycle 2.
  - by split; [|intros []].
  - rewrite Nat.ltb_irrefl, field_types_match_refl. by split; [eexists|].
  - rewrite Nat.eqb_refl. cbn [negb]. split; [by eexists|intros _].
    apply (forallb_combine_Forall2 (fun f f_new => is_enum_fields_compatible (v_fields f) (v_fields f_new)));
      [done|]. apply Forall_Forall2_diag, Forall_forall. intros [n [x|x|]] _;
      cbn [v_fields is_enum_fields_compatible].
    + by rewrite Nat.eqb_refl, field_types_match_refl.
    + by apply bool_decide_eq_true_2.
    + by apply bool_decide_eq_true_2.
Qed.

End Evo.

Section TreeOpsMore.
Context {V IxState : Type}.
Context (encode : V -> list Z) (decode : list Z -> option V).
Context (evolution : SimpleVersion).
Context (ix_update : IxState -> SledTree -> SimpleVersion -> GenericKey ->
                     list Z -> Action -> IxState * result unit).

Local Abbreviation TT := (@TypedTree IxState).


Lemma KeyPool_get_some (p p' : KeyPool) (n : N) :
  KeyPool_get p = (Some n, p') -> pool_well_formed p ->
  pool_well_formed p' /\ pool_keys p = n :: pool_keys p'.
Proof.
  intros Hg Hwf. destruct (ranges p) as [|[s e] rest] eqn:Hr.
  - unfold KeyPool_get in Hg. by rewrite Hr in Hg.
  - destruct (KeyPool_get_step p s e rest Hwf Hr) as (p'' & Hg' & Hwf' & Hk).
    rewrite Hg in Hg'. injection Hg' as -> <-. done.
Qed.

(** X25: A successful [insert] takes the first id of the key pool (which, for a pool of non-empty [u32] ranges, then no longer holds it), writes the new record at a key that was free, and changes no other record. *)
Theorem insert_ok_effects (now : Z) (v : V) (t t' : TT) (k : GenericKey) :
  insert encode evolution ix_update now v t = (t', Ok k) ->
  tdata t !! to_bytes k = None /\ revision k = 0 /\
  tdata t' !! to_bytes k =
    Some (ERecord (mkRecord 0 (mkRecordMeta k (version_for (versioning t)) (uuid t) (username t)
                                 now now rkyv_version) 0 (encode v) evolution)) /\
  (forall kb, kb <> to_bytes k -> kb <> KEY_POOL -> tdata t' !! kb = tdata t !! kb) /\
  exists p p', tdata t !! KEY_POOL = Some (EKeyPool p) /\
    tdata t' !! KEY_POOL = Some (EKeyPool p') /\
    (pool_well_formed p -> pool_well_formed p' /\ pool_keys p = id k :: pool_keys p').
Proof.
  unfold TypedTreeDb.insert.
  destruct (pool_get_key (tdata t)) as [d1 [gk|e]] eqn:Hp; [|done].
  destruct (pool_get_key_ok _ _ _ Hp) as (p & p' & Hpool & Hg & Hrev & ->).
  cbn [tdata with_data]. rewrite lookup_insert_ne by (apply not_eq_sym, to_bytes_not_key_pool).
  destruct (tdata t !! to_bytes gk) as [e|] eqn:Hfree; [done|].
  destruct (run_indexers ix_update _ _ _ _ _ _) as [ixs [[]|er]]; [|done].
  cbn [tdata with_data with_indexers versioning uuid username indexers tree_name].
  destruct (send_change _ _) as [t2|] eqn:Hs; [|done].
  intros [= <- <-].
  destruct (send_change_fields _ _ _ Hs) as (Hd & _ & _). cbn [tdata with_data with_indexers] in Hd.
  destruct (notify_fields t2 gk CreateOrChange) as (Hn & _ & _).
  rewrite Hn, Hd. split; [done|]. split; [done|]. split; [by rewrite lookup_insert_eq|].
  split.
  - intros kb H1 H2. by rewrite lookup_insert_ne, lookup_insert_ne by done.
  - exists p, p'. split; [done|]. split.
    + rewrite lookup_insert_ne by apply to_bytes_not_key_pool. by rewrite lookup_insert_eq.
    + intros Hwf. by apply (KeyPool_get_some p p' (id gk)).
Qed.

(** X26: A successful [update] rewrites an existing record in place (never creates one, never a [Released] one on a versioned tree): both iterations are incremented as [u32] (wrapping to 0 at [u32::MAX], as a release build does), the creation time is kept, the version is reset to [Draft(0)] or [NonVersioned]; [get] then returns the new value. *)
Theorem update_ok_effects (now : Z) (k : GenericKey) (v : V) (t t' : TT) :
  update encode evolution ix_update now k v t = (t', Ok tt) ->
  (versioning t = false -> revision k = 0) /\
  exists r, tdata t !! to_bytes k = Some (ERecord r) /\
    (versioning t = true -> is_released (version (meta r)) = false) /\
    tdata t' = <[to_bytes k := ERecord (mkRecord (u32_add (meta_iteration r) 1)
                  (mkRecordMeta k (version_for (versioning t)) (uuid t) (username t) now
                     (created (meta r)) rkyv_version)
                  (u32_add (data_iteration r) 1) (encode v) evolution)]> (tdata t) /\
    (decode (encode v) = Some v -> get decode evolution t' k = Ok v).
Proof.
  unfold TypedTreeDb.update.
  destruct (is_checked_out t k); cbn [negb]; [|done].
  destruct (versioning t) eqn:Hv; cbn [negb andb].
  2: destruct (revision k =? 0) eqn:Hr; cbn [negb]; [|done].
  all: destruct (check_previous t k); [|done].
  all: destruct (tdata t !! to_bytes k) as [[r|p]|] eqn:Hl; cbn [archived_record]; try done.
  1: destruct (is_released (version (meta r))) eqn:Hrel; cbn [andb]; [done|].
  all: destruct (run_indexers ix_update _ _ _ _ _ _) as [ixs [[]|er]]; [|done].
  all: cbn [tdata with_data with_indexers versioning uuid username indexers tree_name].
  all: destruct (send_change _ _) as [t2|] eqn:Hs; [|done].
  all: intros [= <-].
  all: destruct (send_change_fields _ _ _ Hs) as (Hd & Hvs & _); cbn [tdata versioning uuid username with_data with_indexers] in Hd, Hvs.
  all: destruct (notify_fields t2 k CreateOrChange) as (Hn & _ & _).
  all: split; [intros H; try done; by apply N.eqb_eq|].
  all: exists r; split; [done|]; split; [intros ?; first [done|congruence]|]; rewrite Hn, Hd; split; [by rewrite ?Hv|].
  all: intros Hdec; unfold TypedTreeDb.get; rewrite Hn, Hd, lookup_insert_eq;
       cbn [archived_record data_evolution data]; rewrite decide_False by (intros Hne; by apply Hne);
       by rewrite Hdec.
Qed.

(** X27: [remove] returning [Ok None] found no record and changed nothing; returning [Ok (Some ())] deleted an existing non-[Released] record, and [get] then reports [RecordNotFound]. *)
Theorem remove_ok_effects (k : GenericKey) (t t' : TT) (o : option unit) :
  remove evolution ix_update k t = (t', Ok o) ->
  match o with
  | None => t' = t /\ tdata t !! to_bytes k = None
  | Some _ =>
      exists r, tdata t !! to_bytes k = Some (ERecord r) /\
        is_released (version (meta r)) = false /\
        tdata t' = delete (to_bytes k) (tdata t) /\
        get decode evolution t' k = Err RecordNotFound
  end.
Proof.
  unfold TypedTreeDb.remove.
  destruct (is_checked_out t k); cbn [negb]; [|done].
  destruct (tdata t !! to_bytes k) as [[r|p]|] eqn:Hl; cbn [archived_record]; [| done |].
  - destruct (is_released (version (meta r))) eqn:Hrel; [done|].
    cbn [tdata with_data with_indexers tree_name].
    destruct (send_change _ _) as [t2|] eqn:Hs; [|done].
    intros [= <- <-].
    destruct (send_change_fields _ _ _ Hs) as (Hd & _ & _); cbn [tdata with_data with_indexers] in Hd.
    destruct (notify_fields t2 k Remove) as (Hn & _ & _).
    exists r. split; [done|]. split; [done|]. rewrite Hn, Hd. split; [done|].
    unfold TypedTreeDb.get. by rewrite Hn, Hd, lookup_delete_eq.
  - by intros [= <- <-].
Qed.

End TreeOpsMore.

(* ------------------------------------------------------------------ *)
(** ** Further properties at concrete inputs *)

Lemma byte_keys_of_list (m : SledTree) :
  Forall is_byte_string (map_to_list m).*1 ->
  forall kb, is_Some (m !! kb) -> is_byte_string kb.
Proof.
  intros Hall kb [e He]. rewrite Forall_forall in Hall. apply Hall.
  apply list_elem_of_fmap. exists (kb, e). split; [done|]. by apply elem_of_map_to_list.
Qed.

Lemma from_bytes_to_bytes_witness :
  from_bytes (to_bytes (mkGenericKey 70000 3)) = Some (mkGenericKey 70000 3).
Proof. apply from_bytes_to_bytes. split; vm_compute; reflexivity. Defined.

Lemma KeyPool_get_hands_out_pool_keys_witness :
  KeyPool_get_n (S (length (pool_keys Fixtures.pool_two))) Fixtures.pool_two =
    (map Some (pool_keys Fixtures.pool_two) ++ [None], mkKeyPool []).
Proof.
  apply KeyPool_get_hands_out_pool_keys.
  apply (bool_decide_unpack _). vm_compute. reflexivity.
Defined.

Lemma total_keys_available_counts_witness :
  total_keys_available Fixtures.pool_two = N.of_nat (length (pool_keys Fixtures.pool_two)).
Proof.
  apply total_keys_available_counts.
  - apply (bool_decide_unpack _). vm_compute. reflexivity.
  - vm_compute. reflexivity.
Defined.

Lemma feed_for_stats_for_witness :
  exists tree', feed_for Fixtures.pool_5_10 (20, 30) = (tree', Ok tt) /\
                stats_for tree' = Ok (5 + (30 - 20)).
Proof.
  apply feed_for_stats_for.
  - vm_compute. reflexivity.
  - lia.
  - vm_compute. reflexivity.
Defined.

Lemma all_revisions_spec_witness :
  Fixtures.k3 ∈ all_revisions Fixtures.items <->
  u32_key Fixtures.k3 /\ is_Some (tdata Fixtures.items !! to_bytes Fixtures.k3).
Proof.
  apply all_revisions_spec. apply byte_keys_of_list.
  apply (bool_decide_unpack _). vm_compute. reflexivity.
Defined.

Lemma tree_overview_spec_witness :
  tdata Fixtures.items !! KEY_POOL <> None /\
  (exists m, tree_overview (tdata Fixtures.items) = Ok m) /\
  ((exists m, tree_overview (tdata Fixtures.items) = Ok m) <->
   forall kb e, tdata Fixtures.items !! kb = Some e -> kb <> KEY_POOL ->
                length kb = 8%nat /\ exists r, e = ERecord r) /\
  (({[ Fixtures.k3 := (0, 0) ]} : gmap GenericKey (N * N)) !! Fixtures.k3 = Some (0, 0) <->
    u32_key Fixtures.k3 /\ exists r, tdata Fixtures.items !! to_bytes Fixtures.k3 = Some (ERecord r) /\
                           (0, 0) = (meta_iteration r, data_iteration r)).
Proof.
  assert (Hb : forall kb, is_Some (tdata Fixtures.items !! kb) -> is_byte_string kb).
  { apply byte_keys_of_list. apply (bool_decide_unpack _). vm_compute. reflexivity. }
  destruct (tree_overview_spec _ Hb) as [Hok Hlk].
  split; [vm_compute; discriminate|]. split; [eexists; vm_compute; reflexivity|].
  split; [exact Hok|].
  refine (Hlk _ _ Fixtures.k3 (0, 0)). vm_compute. reflexivity.
Defined.

Lemma compare_requests_missing_or_outdated_witness :
  Fixtures.k5 ∈ [Fixtures.k5; Fixtures.k3] <-> exists mi di,
    (<[Fixtures.k3 := (0, 0)]> {[ Fixtures.k5 := (1, 0) ]} : gmap GenericKey (N * N)) !! Fixtures.k5
      = Some (mi, di) /\
    (default ∅ (Fixtures.meta_db !! "items") !! to_bytes Fixtures.k5 = None \/
     exists r, default ∅ (Fixtures.meta_db !! "items") !! to_bytes Fixtures.k5 = Some (ERecord r) /\
               (data_iteration r < di \/ meta_iteration r < mi)).
Proof.
  refine (compare_requests_missing_or_outdated Fixtures.meta_db Fixtures.meta_db
            "items" _ _ _ Fixtures.k5).
  vm_compute. reflexivity.
Defined.

Lemma overview_requests_nothing_witness :
  compare_and_request_missing_records Fixtures.meta_db "items"
    (map_to_list ({[ Fixtures.k5 := (0, 0) ]} : gmap GenericKey (N * N)))
  = (Fixtures.meta_db, Ok []).
Proof.
  apply (overview_requests_nothing _ _
           {[ to_bytes Fixtures.k5 := ERecord (Fixtures.rec_at Fixtures.k5 (Draft 0) [7%Z]) ]}).
  - apply byte_keys_of_list. apply (bool_decide_unpack _). vm_compute. reflexivity.
  - vm_compute. reflexivity.
  - vm_compute. reflexivity.
Defined.

Lemma handle_incoming_record_idempotent_witness :
  let run := handle_incoming_record Fixtures.ix_ok Fixtures.meta_db None Fixtures.meta_event in
  handle_incoming_record Fixtures.ix_ok run.1.1 run.1.2 Fixtures.meta_event = ((run.1.1, run.1.2), run.2).
Proof.
  cbv zeta. apply (handle_incoming_record_idempotent Fixtures.ix_ok Fixtures.meta_db None).
  vm_compute. reflexivity.
Defined.

Lemma handle_incoming_record_frame_monotone_witness :
  let run := handle_incoming_record Fixtures.ix_ok Fixtures.meta_db None Fixtures.meta_event in
  (forall n kb, (n, kb) <> ("items", to_bytes Fixtures.k5) ->
     default ∅ (run.1.1 !! n) !! kb = default ∅ (Fixtures.meta_db !! n) !! kb) /\
  (forall r r',
     default ∅ (Fixtures.meta_db !! "items") !! to_bytes Fixtures.k5 = Some (ERecord r) ->
     default ∅ (run.1.1 !! "items") !! to_bytes Fixtures.k5 = Some (ERecord r') ->
     meta_iteration r <= meta_iteration r' /\ data_iteration r <= data_iteration r').
Proof.
  cbv zeta.
  apply (handle_incoming_record_frame_monotone Fixtures.ix_ok Fixtures.meta_db None Fixtures.meta_event _
           (handle_incoming_record Fixtures.ix_ok Fixtures.meta_db None Fixtures.meta_event).1.2
           (handle_incoming_record Fixtures.ix_ok Fixtures.meta_db None Fixtures.meta_event).2).
  vm_compute. reflexivity.
Defined.

Lemma relay_removed_effects_witness :
  let run := Relay.process_hot_sync Fixtures.ix_ok Fixtures.relay_state1 Fixtures.relay_conn
               Fixtures.removed_k5 in
  Relay.string_bytes "items" ++ to_bytes Fixtures.k5 ∈ Relay.removed run.1 /\
  (forall bk, Relay.rborrows run.1 !! "items" = Some bk -> bk !! Fixtures.k5 = None) /\
  (forall tn, tn <> "items" -> Relay.rborrows run.1 !! tn = Relay.rborrows Fixtures.relay_state1 !! tn).
Proof.
  cbv zeta.
  apply (relay_removed_effects Fixtures.ix_ok Fixtures.relay_state1 _ Fixtures.relay_conn
           Fixtures.removed_k5 Fixtures.relay_client
           (Relay.process_hot_sync Fixtures.ix_ok Fixtures.relay_state1 Fixtures.relay_conn
              Fixtures.removed_k5).2).
  - reflexivity.
  - reflexivity.
  - vm_compute. reflexivity.
Defined.

Lemma relay_tombstone_permanent_witness :
  let st := (Relay.process_hot_sync Fixtures.ix_ok Fixtures.relay_state1 Fixtures.relay_conn
               Fixtures.removed_k5).1 in
  let run := Relay.process_hot_sync Fixtures.ix_ok st Fixtures.relay_conn Fixtures.meta_k5 in
  Relay.removed st ⊆ Relay.removed run.1 /\
  (Relay.string_bytes "items" ++ to_bytes Fixtures.k5 ∈ Relay.removed st ->
   Relay.w_kind Fixtures.meta_k5 <> Relay.WRemoved -> run.1 = st /\ run.2 = Ok tt).
Proof.
  cbv zeta. apply (relay_tombstone_permanent Fixtures.ix_ok _ _ Fixtures.relay_conn Fixtures.meta_k5).
  vm_compute. reflexivity.
Defined.

Lemma relay_never_echoes_witness :
  let run := Relay.process_hot_sync Fixtures.ix_ok Fixtures.relay_state1 Fixtures.relay_conn
               Fixtures.meta_k5 in
  exists added, Relay.broadcast run.1 = Relay.broadcast Fixtures.relay_state1 ++ added /\
                Forall (fun e => relays_to Fixtures.relay_conn e = false) added.
Proof.
  cbv zeta.
  apply (relay_never_echoes Fixtures.ix_ok Fixtures.relay_state1 _ Fixtures.relay_conn Fixtures.meta_k5
           (Relay.process_hot_sync Fixtures.ix_ok Fixtures.relay_state1 Fixtures.relay_conn
              Fixtures.meta_k5).2).
  vm_compute. reflexivity.
Defined.

Lemma checkout_or_return_frame_witness :
  let run := checkout_or_return Fixtures.queues false Fixtures.relay_conn true "items"
               [Fixtures.k3; Fixtures.k5] in
  (forall tn, tn <> "items" -> run.1.1 !! tn = Fixtures.queues !! tn) /\
  (forall k, filter (fun x => x <> 2) (default [] (default ∅ (run.1.1 !! "items") !! k)) =
             filter (fun x => x <> 2) (default [] (default ∅ (Fixtures.queues !! "items") !! k))) /\
  ((forall k, NoDup (default [] (default ∅ (Fixtures.queues !! "items") !! k))) ->
   forall k, NoDup (default [] (default ∅ (run.1.1 !! "items") !! k))).
Proof.
  cbv zeta.
  apply (checkout_or_return_frame Fixtures.queues _ false Fixtures.relay_conn true "items"
           [Fixtures.k3; Fixtures.k5]
           (checkout_or_return Fixtures.queues false Fixtures.relay_conn true "items"
              [Fixtures.k3; Fixtures.k5]).1.2
           (checkout_or_return Fixtures.queues false Fixtures.relay_conn true "items"
              [Fixtures.k3; Fixtures.k5]).2
           Fixtures.relay_client).
  - reflexivity.
  - vm_compute. reflexivity.
Defined.

Lemma checkout_or_return_effect_witness :
  let run := checkout_or_return Fixtures.queues false Fixtures.relay_conn false "items"
               [Fixtures.k3] in
  (false = true -> forall k, k ∈ [Fixtures.k3] ->
     2 ∈ default [] (default ∅ (run.1.1 !! "items") !! k)) /\
  (false = false -> (forall k, NoDup (default [] (default ∅ (Fixtures.queues !! "items") !! k))) ->
   forall k, k ∈ [Fixtures.k3] -> head (default [] (default ∅ (run.1.1 !! "items") !! k)) <> Some 2).
Proof.
  cbv zeta.
  apply (checkout_or_return_effect Fixtures.queues _ false Fixtures.relay_conn false "items"
           [Fixtures.k3]
           (checkout_or_return Fixtures.queues false Fixtures.relay_conn false "items"
              [Fixtures.k3]).1.2
           (checkout_or_return Fixtures.queues false Fixtures.relay_conn false "items"
              [Fixtures.k3]).2
           Fixtures.relay_client).
  - reflexivity.
  - vm_compute. reflexivity.
Defined.

Lemma get_key_set_grants_witness :
  let run := get_key_set {[ "items" := 300 ]} ∅ Fixtures.relay_conn "items" in
  run.2 = Some (300, 300 + KEYS_PER_REQUEST) /\
  run.1.1.1 !! "items" = Some (300 + KEYS_PER_REQUEST) /\
  (forall tn, tn <> "items" -> run.1.1.1 !! tn = ({[ "items" := 300 ]} : gmap string N) !! tn) /\
  exists ci', Relay.info run.1.2 = Some ci' /\ run.1.1.2 !! 2 = Some ci' /\
    Relay.ci_uuid ci' = 2 /\
    (forall k, 300 <= id k < 300 + KEYS_PER_REQUEST -> Relay.owns_key ci' "items" k = true) /\
    (forall tn k, Relay.owns_key Fixtures.relay_client tn k = true -> Relay.owns_key ci' tn k = true).
Proof.
  cbv zeta.
  apply (get_key_set_grants {[ "items" := 300 ]} ∅ Fixtures.relay_conn "items" Fixtures.relay_client 300).
  - reflexivity.
  - vm_compute. reflexivity.
  - vm_compute. reflexivity.
  - vm_compute. reflexivity.
Defined.

Lemma get_key_set_wraps_witness :
  let run := get_key_set {[ "items" := 4294967000 ]} ∅ Fixtures.relay_conn "items" in
  run.2 = Some (4294967000, 4294967000 + KEYS_PER_REQUEST - 2 ^ 32) /\
  4294967000 + KEYS_PER_REQUEST - 2 ^ 32 < 4294967000 /\
  run.1.1.1 !! "items" = Some (4294967000 + KEYS_PER_REQUEST - 2 ^ 32) /\
  exists ci', Relay.info run.1.2 = Some ci' /\ run.1.1.2 !! 2 = Some ci' /\
    forall tn k, Relay.owns_key ci' tn k = Relay.owns_key Fixtures.relay_client tn k.
Proof.
  cbv zeta.
  apply (get_key_set_wraps {[ "items" := 4294967000 ]} ∅ Fixtures.relay_conn "items"
           Fixtures.relay_client 4294967000).
  - reflexivity.
  - vm_compute. reflexivity.
  - vm_compute. reflexivity.
  - vm_compute. discriminate.
  - vm_compute. reflexivity.
Defined.

Lemma open_cold_tree_evolution_mismatch_witness :
  let newest_differs :=
    exists known_tc, evolutions Fixtures.items_descriptor !! (0, 0) = Some known_tc /\
      known_tc <> Fixtures.tc_named "y" /\
      forall k tc, evolutions Fixtures.items_descriptor !! k = Some tc ->
        sv_cmp (mkSimpleVersion k.1 k.2) Fixtures.ev0 <> Gt in
  (open_cold_tree_check "items" "items" false Fixtures.ev0 (Fixtures.tc_named "y")
     (Some Fixtures.items_descriptor) = Err EvolutionMismatch <-> newest_differs) /\
  (~ newest_differs ->
   open_cold_tree_check "items" "items" false Fixtures.ev0 (Fixtures.tc_named "y")
     (Some Fixtures.items_descriptor) = Ok tt).
Proof.
  apply open_cold_tree_evolution_mismatch; vm_compute; reflexivity.
Defined.

Lemma is_backwards_compatible_struct_witness :
  EvolutionCheck.is_backwards_compatible (Fixtures.tc_named "x") (Fixtures.tc_two "y" "z") = true <->
  exists kept added,
    SimpleAst.refs (Fixtures.tc_two "y" "z") !! SimpleAst.root (Fixtures.tc_named "x") =
      Some (SimpleAst.Struct (kept ++ added)) /\
    map SimpleAst.ty kept = map SimpleAst.ty [SimpleAst.mkStructField "x" "u32"].
Proof.
  apply is_backwards_compatible_struct. vm_compute. reflexivity.
Defined.

Lemma is_backwards_compatible_enum_witness :
  EvolutionCheck.is_backwards_compatible (Fixtures.tc_enum "B" "u32") (Fixtures.tc_enum "C" "u64")
    = true <->
  exists next_variants,
    SimpleAst.refs (Fixtures.tc_enum "C" "u64") !! SimpleAst.root (Fixtures.tc_enum "B" "u32") =
      Some (SimpleAst.Enum next_variants) /\
    Forall2 (fun a b =>
      match SimpleAst.v_fields a, SimpleAst.v_fields b with
      | SimpleAst.Named x, SimpleAst.Named y => map SimpleAst.ty x = map SimpleAst.ty y
      | SimpleAst.Unnamed x, SimpleAst.Unnamed y => x = y
      | SimpleAst.Unit, SimpleAst.Unit => True
      | _, _ => False
      end)
      [SimpleAst.mkEnumVariant "A" SimpleAst.Unit;
       SimpleAst.mkEnumVariant "B" (SimpleAst.Unnamed ["u32"])] next_variants.
Proof.
  apply is_backwards_compatible_enum. vm_compute. reflexivity.
Defined.

Lemma insert_ok_effects_witness :
  let run := insert Fixtures.encode_n Fixtures.ev0 Fixtures.ix_ok 0 7 Fixtures.items_fresh in
  tdata Fixtures.items_fresh !! to_bytes Fixtures.k5 = None /\ revision Fixtures.k5 = 0 /\
  tdata run.1 !! to_bytes Fixtures.k5 =
    Some (ERecord (mkRecord 0 (mkRecordMeta Fixtures.k5
                                 (version_for (versioning Fixtures.items_fresh))
                                 (uuid Fixtures.items_fresh) (username Fixtures.items_fresh)
                                 0 0 rkyv_version) 0 (Fixtures.encode_n 7) Fixtures.ev0)) /\
  (forall kb, kb <> to_bytes Fixtures.k5 -> kb <> KEY_POOL ->
     tdata run.1 !! kb = tdata Fixtures.items_fresh !! kb) /\
  exists p p', tdata Fixtures.items_fresh !! KEY_POOL = Some (EKeyPool p) /\
    tdata run.1 !! KEY_POOL = Some (EKeyPool p') /\
    (pool_well_formed p -> pool_well_formed p' /\ pool_keys p = id Fixtures.k5 :: pool_keys p').
Proof.
  cbv zeta. apply (insert_ok_effects Fixtures.encode_n Fixtures.ev0 Fixtures.ix_ok).
  vm_compute. reflexivity.
Defined.

Lemma update_ok_effects_witness :
  let run := update Fixtures.encode_n Fixtures.ev0 Fixtures.ix_ok 0 Fixtures.k3 8 Fixtures.items in
  (versioning Fixtures.items = false -> revision Fixtures.k3 = 0) /\
  exists r, tdata Fixtures.items !! to_bytes Fixtures.k3 = Some (ERecord r) /\
    (versioning Fixtures.items = true -> is_released (version (meta r)) = false) /\
    tdata run.1 = <[to_bytes Fixtures.k3 := ERecord (mkRecord (u32_add (meta_iteration r) 1)
                  (mkRecordMeta Fixtures.k3 (version_for (versioning Fixtures.items))
                     (uuid Fixtures.items) (username Fixtures.items) 0
                     (created (meta r)) rkyv_version)
                  (u32_add (data_iteration r) 1) (Fixtures.encode_n 8) Fixtures.ev0)]>
                  (tdata Fixtures.items) /\
    (Fixtures.decode_n (Fixtures.encode_n 8) = Some 8 ->
     get Fixtures.decode_n Fixtures.ev0 run.1 Fixtures.k3 = Ok 8).
Proof.
  cbv zeta. apply (update_ok_effects Fixtures.encode_n Fixtures.decode_n Fixtures.ev0 Fixtures.ix_ok).
  vm_compute. reflexivity.
Defined.

Lemma remove_ok_effects_witness :
  let run := remove Fixtures.ev0 Fixtures.ix_ok Fixtures.k3 Fixtures.items in
  exists r, tdata Fixtures.items !! to_bytes Fixtures.k3 = Some (ERecord r) /\
    is_released (version (meta r)) = false /\
    tdata run.1 = delete (to_bytes Fixtures.k3) (tdata Fixtures.items) /\
    get Fixtures.decode_n Fixtures.ev0 run.1 Fixtures.k3 = Err RecordNotFound.
Proof.
  cbv zeta. apply (remove_ok_effects Fixtures.decode_n Fixtures.ev0 Fixtures.ix_ok Fixtures.k3
                     Fixtures.items _ (Some tt)).
  vm_compute. reflexivity.
Defined.
